(** * QP/C++ active-object core: event deferral and the Win32 port

    A shallow embedding of [qf/source/qa_defer.cpp] (QActive::defer and
    QActive::recall) and of [ports/win32/qf_port.cpp] (QF::init, QF::run,
    QF::thread_, QF_setTickRate, QActive::start, QActive::stop), with the
    properties the design document states about them.

    C++ functions become functions into [outcome]: a call either completes
    with a value or dies in a QP assertion, identified by the module name
    given to Q_DEFINE_THIS_MODULE and the numeric id of the assertion.
    Objects reached through pointers (events, whose reference counter is
    shared by every queue that holds them) live in an explicit store.  The
    threads of the Win32 port are a transition system in which the calls of
    the application and the statements of QF::thread_ interleave; an active
    object is shared between its thread and the callers of its member
    functions, so a write to [m_thread] by one is seen by the other. *)

From stdpp Require Import gmap strings list.
From Stdlib Require Import ZArith Lia.

Set Default Proof Using "Type".

(** ** Assertions *)

(** How a call ends: it completes with a value, or the process dies in a
    fatal assertion that reports the module and the id of the assertion. *)
Inductive outcome (A : Type) : Type :=
| Done (a : A)
| Assertion (module : string) (id : Z).
Arguments Done {A} a.
Arguments Assertion {A} module id.

#[global] Instance outcome_ret : MRet outcome := fun A a => Done a.

#[global] Instance outcome_bind : MBind outcome := fun A B k m =>
  match m with
  | Done a => k a
  | Assertion md id => Assertion md id
  end.

(** Modelled from the spec: the macros [Q_ASSERT_ID(id, test)] and
    [Q_REQUIRE_ID(id, test)] of qassert.h, which is not among the sources:
    when [test] is false the process is terminated with the diagnostic
    identifier, and nothing is recovered. *)
Definition Q_ASSERT_ID (this_module : string) (id : Z) (test : bool)
  : outcome unit :=
  if test then Done tt else Assertion this_module id.

Definition Q_REQUIRE_ID := Q_ASSERT_ID.

Definition aborts {A : Type} (m : outcome A) : Prop :=
  exists md id, m = Assertion md id.

Definition returns {A : Type} (m : outcome A) : Prop :=
  exists a, m = Done a.

(** ** Events and event queues *)

(** An event is handled through its address. *)
Definition EvtPtr := nat.

(** Modelled from the spec: the event record, declared in qep.h, which is
    not among the sources.  The fields [poolId_] and [refCtr_] are the ones
    qa_defer.cpp reads; an event with pool id 0 is static and not counted,
    the reference counter is the number of live references (a natural
    number: the width of the counter is not stated). *)
Record QEvt : Type := mkQEvt {
  sig : nat;
  poolId_ : nat;
  refCtr_ : nat
}.

Definition Heap := EvtPtr -> QEvt.

Definition heap_set (h : Heap) (e : EvtPtr) (v : QEvt) : Heap :=
  fun p => if decide (p = e) then v else h p.

(** One access to a reference counter, and whether it was made inside the
    QF critical section. *)
Inductive RefOp := RefInc | RefCheck | RefDec.

Record Access : Type := mkAccess {
  acc_op : RefOp;
  acc_evt : EvtPtr;
  acc_locked : bool
}.

(** The memory the deferral code works on: the events, the nesting depth at
    which the running thread holds the QF critical section
    ([QF_enterCriticalSection_] / [QF_leaveCriticalSection_] of qf_port.cpp;
    a Win32 critical section may be entered again by its owner), and the
    history of reference-counter accesses. *)
Record World : Type := mkWorld {
  heap : Heap;
  critNest : nat;
  accesses : list Access
}.

Definition in_crit (w : World) : bool := negb (critNest w =? 0).

(** The macros QF_CRIT_ENTRY_ and QF_CRIT_EXIT_ of the port: calls of
    [QF_enterCriticalSection_] and [QF_leaveCriticalSection_], which enter
    and leave [l_win32CritSect]. *)
Definition QF_CRIT_ENTRY_ (w : World) : World :=
  mkWorld (heap w) (S (critNest w)) (accesses w).

Definition QF_CRIT_EXIT_ (w : World) : World :=
  mkWorld (heap w) (pred (critNest w)) (accesses w).

Definition note (op : RefOp) (e : EvtPtr) (w : World) : World :=
  mkWorld (heap w) (critNest w) (accesses w ++ [mkAccess op e (in_crit w)]).

Definition set_refCtr (e : EvtPtr) (n : nat) (w : World) : World :=
  let ev := heap w e in
  mkWorld (heap_set (heap w) e (mkQEvt (sig ev) (poolId_ ev) n))
          (critNest w) (accesses w).

(** Modelled from the spec: the macros QF_EVT_REF_CTR_INC_ and
    QF_EVT_REF_CTR_DEC_ of qf_pkg.h, which is not among the sources; they add
    one to, and take one from, the reference counter of the event. *)
Definition QF_EVT_REF_CTR_INC_ (e : EvtPtr) (w : World) : World :=
  set_refCtr e (S (refCtr_ (heap w e))) (note RefInc e w).

Definition QF_EVT_REF_CTR_DEC_ (e : EvtPtr) (w : World) : World :=
  set_refCtr e (pred (refCtr_ (heap w e))) (note RefDec e w).

Definition pooled (w : World) (e : EvtPtr) : bool :=
  negb (poolId_ (heap w e) =? 0).

(** Modelled from the spec: the native event queue QEQueue (qequeue.h and
    its member functions are not among the sources).  A queue is a bounded
    sequence of event references, oldest first. *)
Record QEQueue : Type := mkQEQueue {
  items : list EvtPtr;
  capacity : nat
}.

Definition nFree (q : QEQueue) : nat := capacity q - length (items q).

(** Modelled from the spec: the hand-off of an event to a queue.  A pooled
    event gains one reference, counted inside the critical section; a
    static event is not counted. *)
Definition hold (e : EvtPtr) (w : World) : World :=
  if pooled w e
  then QF_CRIT_EXIT_ (QF_EVT_REF_CTR_INC_ e (QF_CRIT_ENTRY_ w))
  else w.

(** Modelled from the spec: QEQueue::init resets the queue to empty with the
    given bound. *)
Definition QEQueue_init (qLen : nat) : QEQueue := mkQEQueue [] qLen.

(** Modelled from the spec: QEQueue::post(e, margin) inserts at the tail when
    the insertion leaves at least [margin] slots free, and otherwise reports
    failure, with no insertion and no change of the reference counter; it
    never asserts by itself. *)
Definition QEQueue_post (q : QEQueue) (e : EvtPtr) (margin : nat) (w : World)
  : outcome (bool * QEQueue * World) :=
  if margin <? nFree q
  then Done (true, mkQEQueue (items q ++ [e]) (capacity q), hold e w)
  else Done (false, q, w).

(** Modelled from the spec: QEQueue::get() on a free-standing queue does not
    block; it takes the event at the head, or yields the "no event" marker
    when the queue is empty, and leaves the reference counter as it is. *)
Definition QEQueue_get (q : QEQueue) : outcome (option EvtPtr * QEQueue) :=
  match items q with
  | [] => Done (None, q)
  | e :: rest => Done (Some e, mkQEQueue rest (capacity q))
  end.

(** A Win32 handle; 0 is the null handle. *)
Definition HANDLE := Z.

(** The data members of an active object that the two files use: the inbox,
    the priority, and the two members of the Win32 port, [m_osObject] (a
    pointer-sized slot that holds a Win32 priority before the start and the
    handle of a Win32 event after it) and [m_thread] (the handle of the
    thread; null when there is none). *)
Record QActive : Type := mkQActive {
  m_eQueue : QEQueue;
  m_prio : Z;
  m_osObject : Z;
  m_thread : HANDLE
}.

Definition set_eQueue (q : QEQueue) (me : QActive) : QActive :=
  mkQActive q (m_prio me) (m_osObject me) (m_thread me).
Definition set_prio (prio : Z) (me : QActive) : QActive :=
  mkQActive (m_eQueue me) prio (m_osObject me) (m_thread me).
Definition set_osObject (o : Z) (me : QActive) : QActive :=
  mkQActive (m_eQueue me) (m_prio me) o (m_thread me).
Definition set_thread (h : HANDLE) (me : QActive) : QActive :=
  mkQActive (m_eQueue me) (m_prio me) (m_osObject me) h.

(** The queue with [e] put in front of what it holds. *)
Definition push_front (e : EvtPtr) (q : QEQueue) : QEQueue :=
  mkQEQueue (e :: items q) (capacity q).

(** Modelled from the spec: QActive::postLIFO(e) inserts at the head of the
    inbox of the active object.  It is not subject to the margin check, but
    it is subject to the bound: the capacity of a queue is never exceeded,
    so a LIFO post that finds no free slot does not insert.  The call hands
    nothing back by which a caller could learn of that (QActive::recall
    calls it as a statement and then counts on the event being in the
    inbox), so the overflow of the inbox is fatal, as the spec allows for
    the inbox.  The design document does not name the diagnostic
    identifier; the one used here plays no role below. *)
Definition QActive_postLIFO (me : QActive) (e : EvtPtr) (w : World)
  : outcome (QActive * World) :=
  Q_ASSERT_ID "qf_actq" 110 (0 <? nFree (m_eQueue me));;
  Done (set_eQueue (push_front e (m_eQueue me)) me, hold e w).

(** ** qa_defer.cpp *)

Definition qa_defer : string := "qa_defer".

(** [bool QActive::defer(QEQueue * const eq, QEvt const * const e) const] *)
Definition QActive_defer (eq : QEQueue) (e : EvtPtr) (w : World)
  : outcome (bool * QEQueue * World) :=
  QEQueue_post eq e 1 w.

(** [bool QActive::recall(QEQueue * const eq)] *)
Definition QActive_recall (me : QActive) (eq : QEQueue) (w : World)
  : outcome (bool * QActive * QEQueue * World) :=
  '(e, eq1) ← QEQueue_get eq;
  match e with
  | Some e =>
      '(me1, w1) ← QActive_postLIFO me e w;
      let w2 := QF_CRIT_ENTRY_ w1 in
      w3 ← (if pooled w2 e
            then Q_ASSERT_ID qa_defer 210
                   (1 <? refCtr_ (heap (note RefCheck e w2) e));;
                 Done (QF_EVT_REF_CTR_DEC_ e (note RefCheck e w2))
            else Done w2);
      Done (true, me1, eq1, QF_CRIT_EXIT_ w3)
  | None => Done (false, me, eq1, w)
  end.

(** The event the active object dispatches next is the one at the head of
    its inbox. *)
Definition next_dispatched (me : QActive) : option EvtPtr :=
  head (items (m_eQueue me)).

(** A defer immediately followed by a recall on the same side queue brings
    [e] back as the next event of the active object, in front of the events
    that were pending, with every reference counter as a successful plain
    post of [e] leaves it. *)
Definition roundtrips (me : QActive) (eq : QEQueue) (e : EvtPtr) (w : World)
  : Prop :=
  exists eq1 w1 me2 eq2 w2,
    QActive_defer eq e w = Done (true, eq1, w1) /\
    QActive_recall me eq1 w1 = Done (true, me2, eq2, w2) /\
    next_dispatched me2 = Some e /\
    items (m_eQueue me2) = e :: items (m_eQueue me) /\
    forall q margin q' w',
      QEQueue_post q e margin w = Done (true, q', w') ->
      forall p, refCtr_ (heap w2 p) = refCtr_ (heap w' p).

(** The world in which a recall of a pooled event ends: the counter is read
    and then lowered, all inside the critical section. *)
Definition released (e : EvtPtr) (w1 : World) : World :=
  QF_CRIT_EXIT_
    (QF_EVT_REF_CTR_DEC_ e (note RefCheck e (QF_CRIT_ENTRY_ w1))).

(** The round trip as first stated: for a side queue with at least one free
    slot. *)
Definition roundtrips_with_one_free_slot : Prop :=
  forall me eq e w, 1 <= nFree eq -> roundtrips me eq e w.

(** What QActive::recall does on a side queue whose head is [e]: it takes
    [e] out and posts it LIFO to the inbox, which keeps its bound; then,
    inside the critical section, for a pooled [e] it dies in assertion 210
    of qa_defer unless the counter is above 1, and otherwise takes exactly
    one reference off; for a static [e] it neither reads nor writes the
    counter.  When it does not die it returns [true]. *)
Definition recall_takes_head (me : QActive) (e : EvtPtr) (rest : list EvtPtr)
    (cap : nat) (w : World) : Prop :=
  exists me1 w1,
    QActive_postLIFO me e w = Done (me1, w1) /\
    items (m_eQueue me1) = e :: items (m_eQueue me) /\
    capacity (m_eQueue me1) = capacity (m_eQueue me) /\
    let r := QActive_recall me (mkQEQueue (e :: rest) cap) w in
    if pooled w e then
      if 1 <? refCtr_ (heap w1 e) then
        exists w',
          r = Done (true, me1, mkQEQueue rest cap, w') /\
          S (refCtr_ (heap w' e)) = refCtr_ (heap w1 e) /\
          poolId_ (heap w' e) = poolId_ (heap w1 e) /\
          sig (heap w' e) = sig (heap w1 e) /\
          (forall p, p <> e -> heap w' p = heap w1 p) /\
          accesses w' = accesses w1 ++
                        [mkAccess RefCheck e true; mkAccess RefDec e true] /\
          critNest w' = critNest w1
      else r = Assertion qa_defer 210
    else r = Done (true, me1, mkQEQueue rest cap, w1) /\ w1 = w.

(** The recall of a deferred event as first stated: for every side queue
    that is not empty, whatever room the inbox has. *)
Definition recall_takes_head_always : Prop :=
  forall me e rest cap w, recall_takes_head me e rest cap w.

(** ** qf_port.cpp: the framework state *)

Definition qf_port : string := "qf_port".

(** The largest priority an active object may have: the macro QF_MAX_ACTIVE
    of the port's qf_port.h, which is not among the sources and is taken as
    a parameter. *)
Class QFConfig : Type := { QF_MAX_ACTIVE : Z }.

(** An active object is registered and known to its thread by its address. *)
Definition AOPtr := nat.

(** The Win32 priority class a thread is created with. *)
Definition THREAD_PRIORITY_NORMAL : Z := 0%Z.

(** What the Win32 calls made by one QActive::start hand back: the handle
    of the event object, and the handle of the thread, null when the thread
    could not be created. *)
Record Win32 : Type := mkWin32 {
  CreateEvent_ : HANDLE;
  CreateThread_ : HANDLE
}.

(** The steps of QF and of its collaborators that are visible from outside
    the two files, in the order in which they are taken. *)
Inductive Effect : Type :=
| E_eQueue_init (qSto : Z) (qLen : Z)
| E_set_prio (prio : Z)
| E_add_ (a : AOPtr) (prio : Z)
| E_CreateEvent
| E_init (ie : EvtPtr)
| E_QS_FLUSH
| E_CreateThread (stkSize : Z) (a : AOPtr)
| E_SetThreadPriority (h : HANDLE) (win32Prio : Z).

(** The file-scope variables of qf_port.cpp and the registry [QF::active_]
    (priority to active object), with the trail of steps taken so far. *)
Record QF : Type := mkQF {
  active_ : gmap Z AOPtr;
  l_tickMsec : Z;
  l_tickPrio : Z;
  l_isRunning : bool;
  effects : list Effect
}.

Definition qf_boot : QF := mkQF ∅ 10%Z 50%Z false [].

Definition log (ef : Effect) (s : QF) : QF :=
  mkQF (active_ s) (l_tickMsec s) (l_tickPrio s) (l_isRunning s)
       (effects s ++ [ef]).

Definition set_active_ (r : gmap Z AOPtr) (s : QF) : QF :=
  mkQF r (l_tickMsec s) (l_tickPrio s) (l_isRunning s) (effects s).

Definition set_isRunning (b : bool) (s : QF) : QF :=
  mkQF (active_ s) (l_tickMsec s) (l_tickPrio s) b (effects s).

(** Modelled from the spec: QF::add_ (qf_act.cpp is not among the sources)
    inserts the active object into the registry under its priority; an
    occupied slot is a fatal programmer error.  The design document does not
    name the diagnostic identifier; the one used here plays no role below. *)
Definition QF_add_ (a : AOPtr) (me : QActive) (s : QF) : outcome QF :=
  Q_REQUIRE_ID "qf_act" 100 (bool_decide (active_ s !! m_prio me = None));;
  Done (log (E_add_ a (m_prio me))
            (set_active_ (<[m_prio me := a]> (active_ s)) s)).

(** Modelled from the spec: QF::remove_ erases the registry slot of the
    priority of the active object. *)
Definition QF_remove_ (me : QActive) (s : QF) : QF :=
  set_active_ (delete (m_prio me) (active_ s)) s.

(** An unsigned 32-bit value ([DWORD], [uint32_t], [unsigned long] on
    Win32). *)
Definition wrap32 (z : Z) : Z := (z mod 2 ^ 32)%Z.

(** [void QF_setTickRate(uint32_t ticksPerSec, int_t tickPrio)] *)
Definition QF_setTickRate (ticksPerSec tickPrio : Z) (s : QF) : outcome QF :=
  Q_REQUIRE_ID qf_port 600 (negb (ticksPerSec =? 0)%Z);;
  Done (mkQF (active_ s) (wrap32 (1000 / ticksPerSec)) tickPrio
             (l_isRunning s) (effects s)).

(** The arguments of QActive::start. *)
Record StartArgs : Type := mkStartArgs {
  a_prio : Z;
  a_qSto : Z;
  a_qLen : Z;
  a_stkSto : Z;
  a_stkSize : Z;
  a_ie : EvtPtr
}.

(** [void QActive::start(uint_fast8_t prio, QEvt const *qSto[],
    uint_fast16_t qLen, void *stkSto, uint_fast16_t stkSize,
    QEvt const *ie)], called on the object at address [this] whose members
    are [me]. *)
Definition QActive_start `{QFConfig} (os : Win32) (this : AOPtr)
    (me : QActive) (args : StartArgs) (s : QF) : outcome (QActive * QF) :=
  Q_REQUIRE_ID qf_port 700
    ((0 <? a_prio args)%Z && (a_prio args <=? QF_MAX_ACTIVE)%Z
     && (a_stkSto args =? 0)%Z);;
  let me := set_eQueue (QEQueue_init (Z.to_nat (a_qLen args))) me in
  let s := log (E_eQueue_init (a_qSto args) (a_qLen args)) s in
  let me := set_prio (a_prio args) me in
  let s := log (E_set_prio (a_prio args)) s in
  s ← QF_add_ this me s;
  let win32Prio := if (m_osObject me =? 0)%Z
                   then THREAD_PRIORITY_NORMAL else m_osObject me in
  let me := set_osObject (CreateEvent_ os) me in
  let s := log E_CreateEvent s in
  let s := log (E_init (a_ie args)) s in
  let s := log E_QS_FLUSH s in
  let stkSize := if (a_stkSize args =? 0)%Z then 1024%Z else a_stkSize args in
  let me := set_thread (CreateThread_ os) me in
  let s := log (E_CreateThread stkSize this) s in
  Q_ASSERT_ID qf_port 730 (negb (m_thread me =? 0)%Z);;
  let s := if negb (win32Prio =? 0)%Z
           then log (E_SetThreadPriority (m_thread me) win32Prio) s else s in
  Done (me, s).

(** [void QActive::stop(void)] *)
Definition QActive_stop (me : QActive) : QActive := set_thread 0%Z me.

(** The startup preconditions of QActive::start, one by one. *)
Definition prio_in_range `{QFConfig} (args : StartArgs) : Prop :=
  (1 <= a_prio args <= QF_MAX_ACTIVE)%Z.
Definition no_stack_storage (args : StartArgs) : Prop :=
  a_stkSto args = 0%Z.
Definition slot_free (args : StartArgs) (s : QF) : Prop :=
  active_ s !! a_prio args = None.
Definition thread_created (os : Win32) : Prop :=
  CreateThread_ os <> 0%Z.

(** The steps of a start that goes through, without the optional setting
    of the Win32 priority that may follow the creation of the thread. *)
Definition start_steps (this : AOPtr) (args : StartArgs) : list Effect :=
  [ E_eQueue_init (a_qSto args) (a_qLen args);
    E_set_prio (a_prio args);
    E_add_ this (a_prio args);
    E_CreateEvent;
    E_init (a_ie args);
    E_QS_FLUSH;
    E_CreateThread (if (a_stkSize args =? 0)%Z then 1024%Z else a_stkSize args)
                   this ].

(** What a start that goes through leaves behind. *)
Definition started `{QFConfig} (os : Win32) (this : AOPtr) (me : QActive)
    (args : StartArgs) (s : QF) (me' : QActive) (s' : QF) : Prop :=
  m_eQueue me' = QEQueue_init (Z.to_nat (a_qLen args)) /\
  m_prio me' = a_prio args /\
  m_osObject me' = CreateEvent_ os /\
  m_thread me' = CreateThread_ os /\
  active_ s' = <[a_prio args := this]> (active_ s) /\
  l_tickMsec s' = l_tickMsec s /\ l_tickPrio s' = l_tickPrio s /\
  l_isRunning s' = l_isRunning s /\
  effects s' = effects s ++ start_steps this args ++
               (if (m_osObject me =? 0)%Z then []
                else [E_SetThreadPriority (CreateThread_ os) (m_osObject me)]).

(** The stack-size hints of the threads created so far, oldest first. *)
Definition thread_requests (l : list Effect) : list Z :=
  omap (fun ef => match ef with
                  | E_CreateThread stkSize _ => Some stkSize
                  | _ => None
                  end) l.

(** The causes of a fatal start as first stated: the priority, the storage
    and the creation of the thread, and nothing else. *)
Definition start_aborts_on_three_causes : Prop :=
  forall (cfg : QFConfig) os this me args s,
    aborts (QActive_start os this me args s) <->
    ~ prio_in_range args \/ ~ no_stack_storage args \/ ~ thread_created os.

(** ** qf_port.cpp: the threads

    The main thread runs QF::init, starts active objects and enters
    QF::run; every QActive::start that goes through creates a thread that
    runs QF::thread_.  The threads are interleaved statement by statement:
    a thread that cannot go on (it waits for a critical section that
    another thread owns, or for an event in an empty inbox) has no step.

    The statement [m_thread = CreateThread(...)] of QActive::start is two
    moves for the rest of the system: the new thread exists, and may run,
    from the call of CreateThread on, and its handle is stored in
    [m_thread] only once the call has returned.  QActive::start is split
    at that point. *)

(** QActive::start up to and including the call of CreateThread: the object
    and the framework as the new thread finds them.  The handle is not yet
    in [m_thread]; the Win32 priority read from [m_osObject] is handed on
    to the rest of the function. *)
Definition QActive_start_create `{QFConfig} (os : Win32) (this : AOPtr)
    (me : QActive) (args : StartArgs) (s : QF)
  : outcome (QActive * QF * Z) :=
  Q_REQUIRE_ID qf_port 700
    ((0 <? a_prio args)%Z && (a_prio args <=? QF_MAX_ACTIVE)%Z
     && (a_stkSto args =? 0)%Z);;
  let me := set_eQueue (QEQueue_init (Z.to_nat (a_qLen args))) me in
  let s := log (E_eQueue_init (a_qSto args) (a_qLen args)) s in
  let me := set_prio (a_prio args) me in
  let s := log (E_set_prio (a_prio args)) s in
  s ← QF_add_ this me s;
  let win32Prio := if (m_osObject me =? 0)%Z
                   then THREAD_PRIORITY_NORMAL else m_osObject me in
  let me := set_osObject (CreateEvent_ os) me in
  let s := log E_CreateEvent s in
  let s := log (E_init (a_ie args)) s in
  let s := log E_QS_FLUSH s in
  let stkSize := if (a_stkSize args =? 0)%Z then 1024%Z else a_stkSize args in
  let s := log (E_CreateThread stkSize this) s in
  Done (me, s, win32Prio).

(** The rest of QActive::start, from the return of CreateThread on: the
    handle is stored in [m_thread] of the object as it is by then, the
    assertion 730 is checked and the Win32 priority is set. *)
Definition QActive_start_store (os : Win32) (win32Prio : Z) (me : QActive)
    (s : QF) : outcome (QActive * QF) :=
  let me := set_thread (CreateThread_ os) me in
  Q_ASSERT_ID qf_port 730 (negb (m_thread me =? 0)%Z);;
  let s := if negb (win32Prio =? 0)%Z
           then log (E_SetThreadPriority (m_thread me) win32Prio) s else s in
  Done (me, s).

(** What the first part of a start that goes through leaves behind. *)
Definition created `{QFConfig} (os : Win32) (this : AOPtr) (me : QActive)
    (args : StartArgs) (s : QF) (me1 : QActive) (s1 : QF) : Prop :=
  m_eQueue me1 = QEQueue_init (Z.to_nat (a_qLen args)) /\
  m_prio me1 = a_prio args /\
  m_osObject me1 = CreateEvent_ os /\
  m_thread me1 = m_thread me /\
  active_ s1 = <[a_prio args := this]> (active_ s) /\
  l_tickMsec s1 = l_tickMsec s /\ l_tickPrio s1 = l_tickPrio s /\
  l_isRunning s1 = l_isRunning s /\
  effects s1 = effects s ++ start_steps this args.

(** Where the main thread is: before QF::init, between QF::init and the
    LeaveCriticalSection of QF::run, or past it. *)
Inductive MainPc : Type := BeforeInit | Initialized | InRun.

(** Where a thread is in QF::thread_: the statement it executes next, from
    [EnterCriticalSection(&l_startupCritSect)] down to [CloseHandle].  The
    event taken by [act->get_()] is carried along to its dispatch and its
    collection. *)
Inductive ThreadPc : Type :=
| AtEnterStartup      (* EnterCriticalSection(&l_startupCritSect) *)
| AtLeaveStartup      (* LeaveCriticalSection(&l_startupCritSect) *)
| AtGet               (* do { e = act->get_() *)
| AtDispatch (e : EvtPtr)   (* act->dispatch(e) *)
| AtGc (e : EvtPtr)         (* gc(e) *)
| AtWhile             (* } while (act->m_thread != NULL) *)
| AtUnsubscribeAll    (* act->unsubscribeAll() *)
| AtRemove            (* QF::remove_(act) *)
| AtCloseHandle       (* CloseHandle(act->m_osObject) *)
| Returned.

(** The owner of a Win32 critical section. *)
Inductive Owner : Type := OwnMain | OwnThread (a : AOPtr).

(** What a thread does that the rest of the system sees. *)
Inductive Obs : Type :=
| Dispatched (a : AOPtr) (e : EvtPtr)
| Collected (a : AOPtr) (e : EvtPtr)
| UnsubscribedAll (a : AOPtr)
| Removed (a : AOPtr)
| HandleClosed (a : AOPtr) (h : Z).

Definition obs_of (o : Obs) : AOPtr :=
  match o with
  | Dispatched a _ | Collected a _ | UnsubscribedAll a | Removed a
  | HandleClosed a _ => a
  end.

Record Thread : Type := mkThread {
  t_act : QActive;
  t_pc : ThreadPc
}.

(** The system: the main thread, the startup critical section with its
    owner, the number of times QF::run has left it, the framework
    variables, the threads with their active objects, the starts that have
    created their thread and not yet stored its handle (with the answers of
    Win32 and the Win32 priority they go on with), and what the threads
    have done. *)
Record Sys : Type := mkSys {
  main_pc : MainPc;
  l_startupCritSect : option Owner;
  gate_releases : nat;
  qf : QF;
  threads : gmap AOPtr Thread;
  starting : gmap AOPtr (Win32 * Z);
  history : list Obs
}.

Definition sys_boot : Sys := mkSys BeforeInit None 0 qf_boot ∅ ∅ [].

Definition set_thread_of (a : AOPtr) (t : Thread) (s : Sys) : Sys :=
  mkSys (main_pc s) (l_startupCritSect s) (gate_releases s) (qf s)
        (<[a := t]> (threads s)) (starting s) (history s).

Definition set_startupCritSect (o : option Owner) (s : Sys) : Sys :=
  mkSys (main_pc s) o (gate_releases s) (qf s) (threads s) (starting s)
        (history s).

Definition set_qf (q : QF) (s : Sys) : Sys :=
  mkSys (main_pc s) (l_startupCritSect s) (gate_releases s) q (threads s)
        (starting s) (history s).

Definition set_starting (m : gmap AOPtr (Win32 * Z)) (s : Sys) : Sys :=
  mkSys (main_pc s) (l_startupCritSect s) (gate_releases s) (qf s)
        (threads s) m (history s).

Definition observe (o : Obs) (s : Sys) : Sys :=
  mkSys (main_pc s) (l_startupCritSect s) (gate_releases s) (qf s)
        (threads s) (starting s) (history s ++ [o]).

(** [void QF::init(void)]: the startup critical section is initialized and
    entered by the main thread, and the registry is cleared. *)
Definition QF_init (s : Sys) : Sys :=
  mkSys Initialized (Some OwnMain) (gate_releases s)
        (set_active_ ∅ (qf s)) (threads s) (starting s) (history s).

(** [int_t QF::run(void)], up to the ticker loop: the main thread leaves the
    startup critical section and marks QF as running. *)
Definition QF_run (s : Sys) : Sys :=
  mkSys InRun None (S (gate_releases s)) (set_isRunning true (qf s))
        (threads s) (starting s) (history s).

(** One statement of [void QF::thread_(QActive *act)], executed by the
    thread of the active object at address [a].  EnterCriticalSection waits
    while the critical section has an owner; [act->get_()] waits while the
    inbox is empty and then takes the event at its head; the dispatch to
    the state machine, the collection of the event and unsubscribeAll are
    calls into code outside the two files and are recorded as they happen. *)
Definition QF_thread_ (a : AOPtr) (t : Thread) (s : Sys) : option Sys :=
  let act := t_act t in
  let goto pc := set_thread_of a (mkThread act pc) in
  match t_pc t with
  | AtEnterStartup =>
      match l_startupCritSect s with
      | None => Some (goto AtLeaveStartup
                        (set_startupCritSect (Some (OwnThread a)) s))
      | Some _ => None
      end
  | AtLeaveStartup => Some (goto AtGet (set_startupCritSect None s))
  | AtGet =>
      match items (m_eQueue act) with
      | [] => None
      | e :: rest =>
          Some (set_thread_of a
                  (mkThread (set_eQueue (mkQEQueue rest (capacity (m_eQueue act)))
                                        act)
                            (AtDispatch e)) s)
      end
  | AtDispatch e => Some (goto (AtGc e) (observe (Dispatched a e) s))
  | AtGc e => Some (goto AtWhile (observe (Collected a e) s))
  | AtWhile =>
      Some (goto (if (m_thread act =? 0)%Z then AtUnsubscribeAll else AtGet) s)
  | AtUnsubscribeAll => Some (goto AtRemove (observe (UnsubscribedAll a) s))
  | AtRemove =>
      Some (goto AtCloseHandle
              (observe (Removed a) (set_qf (QF_remove_ act (qf s)) s)))
  | AtCloseHandle =>
      Some (goto Returned (observe (HandleClosed a (m_osObject act)) s))
  | Returned => None
  end.

(** The moves of the system: a call made by the application (QF::init, a
    QActive::start on a fresh object as far as the creation of its thread,
    the rest of that start, QF::run, QActive::stop, a post to an inbox with
    room), a LIFO post by a thread to its own inbox from within the
    dispatch in progress (which is what a QActive::recall that finds an
    event does), or one statement of a thread.  QF::init is the first call
    of the framework; a call that dies in an assertion ends the process and
    has no successor state; an object is started once.  When Win32 creates
    no thread the start dies in its assertion 730 with nothing run in
    between. *)
Inductive Label : Type :=
| L_init
| L_start (os : Win32) (a : AOPtr) (me : QActive) (args : StartArgs)
| L_store (a : AOPtr)
| L_run
| L_stop (a : AOPtr)
| L_post (a : AOPtr) (e : EvtPtr)
| L_postLIFO (a : AOPtr) (e : EvtPtr)
| L_thread (a : AOPtr).

Definition step `{QFConfig} (l : Label) (s : Sys) : option Sys :=
  match l with
  | L_init =>
      match main_pc s with
      | BeforeInit => Some (QF_init s)
      | _ => None
      end
  | L_start os a me args =>
      match main_pc s, threads s !! a with
      | BeforeInit, _ => None
      | _, Some _ => None
      | _, None =>
          match QActive_start_create os a me args (qf s) with
          | Done (me1, q1, win32Prio) =>
              if (CreateThread_ os =? 0)%Z then None
              else Some (set_starting (<[a := (os, win32Prio)]> (starting s))
                           (set_thread_of a (mkThread me1 AtEnterStartup)
                              (set_qf q1 s)))
          | Assertion _ _ => None
          end
      end
  | L_store a =>
      '(os, win32Prio) ← starting s !! a;
      t ← threads s !! a;
      match QActive_start_store os win32Prio (t_act t) (qf s) with
      | Done (me', q') =>
          Some (set_starting (delete a (starting s))
                  (set_thread_of a (mkThread me' (t_pc t)) (set_qf q' s)))
      | Assertion _ _ => None
      end
  | L_run =>
      match main_pc s with
      | Initialized => Some (QF_run s)
      | _ => None
      end
  | L_stop a =>
      t ← threads s !! a;
      Some (set_thread_of a (mkThread (QActive_stop (t_act t)) (t_pc t)) s)
  | L_post a e =>
      t ← threads s !! a;
      let q := m_eQueue (t_act t) in
      if 0 <? nFree q
      then Some (set_thread_of a
                   (mkThread (set_eQueue (mkQEQueue (items q ++ [e]) (capacity q))
                                         (t_act t))
                             (t_pc t)) s)
      else None
  | L_postLIFO a e =>
      t ← threads s !! a;
      match t_pc t with
      | AtDispatch _ =>
          let q := m_eQueue (t_act t) in
          if 0 <? nFree q
          then Some (set_thread_of a
                       (mkThread (set_eQueue (push_front e q) (t_act t))
                                 (t_pc t)) s)
          else None
      | _ => None
      end
  | L_thread a =>
      t ← threads s !! a;
      QF_thread_ a t s
  end.

(** The object whose members a move writes while its thread stays where
    it is: the rest of a start, a stop, a post, a LIFO post. *)
Definition member_update (l : Label) : option AOPtr :=
  match l with
  | L_store a | L_stop a | L_post a _ | L_postLIFO a _ => Some a
  | _ => None
  end.

(** A schedule, executed from left to right. *)
Fixpoint exec `{QFConfig} (sch : list Label) (s : Sys) : option Sys :=
  match sch with
  | [] => Some s
  | l :: sch' =>
      match step l s with
      | Some s' => exec sch' s'
      | None => None
      end
  end.



(** What the thread of [a] itself did, out of the history of the system. *)
Fixpoint own (a : AOPtr) (h : list Obs) : list Obs :=
  match h with
  | [] => []
  | o :: h' => if bool_decide (obs_of o = a) then o :: own a h' else own a h'
  end.

(** Once QF::run has left the startup critical section, the main thread
    never owns it again: it is free, or owned by the one thread that has
    entered it and is about to leave it. *)
Definition gate_passed_on (s : Sys) : Prop :=
  l_startupCritSect s <> Some OwnMain /\
  (forall a, l_startupCritSect s = Some (OwnThread a) ->
             exists t, threads s !! a = Some t /\ t_pc t = AtLeaveStartup) /\
  (forall a t, threads s !! a = Some t -> t_pc t = AtLeaveStartup ->
               l_startupCritSect s = Some (OwnThread a)).

(** What holds of the startup gate at every moment: before QF::init there
    are no threads; from QF::init to the LeaveCriticalSection of QF::run
    the main thread owns the gate, which it has never left, and every thread
    stands in front of it with nothing dispatched; from then on the gate has
    been left by QF::run once, and it is passed on among the threads. *)
Definition gate_inv (s : Sys) : Prop :=
  match main_pc s with
  | BeforeInit =>
      threads s = ∅ /\ history s = [] /\ gate_releases s = 0
  | Initialized =>
      l_startupCritSect s = Some OwnMain /\ history s = [] /\
      gate_releases s = 0 /\
      forall a t, threads s !! a = Some t -> t_pc t = AtEnterStartup
  | InRun => gate_releases s = 1 /\ gate_passed_on s
  end.

(** What the startup gate does, in a state [s]: the count of the releases;
    between QF::init and QF::run the main thread owns the gate, and the
    LeaveCriticalSection of QF::run is the move that frees it; until then
    every thread stands in front of the gate, cannot move, and nothing is
    dispatched; from then on QF::run and QF::init cannot be taken again,
    the main thread never owns the gate again, a thread that owns it is
    about to leave it and can do so, and when it is free every thread in
    front of it can enter. *)
Definition gate_behaviour `{QFConfig} (s : Sys) : Prop :=
  gate_releases s = (if main_pc s is InRun then 1 else 0) /\
  (main_pc s = Initialized ->
   l_startupCritSect s = Some OwnMain /\
   exists s',
     step L_run s = Some s' /\ main_pc s' = InRun /\
     l_startupCritSect s' = None /\
     gate_releases s' = S (gate_releases s) /\
     threads s' = threads s /\ history s' = history s) /\
  (main_pc s <> InRun ->
   history s = [] /\
   forall a t, threads s !! a = Some t ->
     t_pc t = AtEnterStartup /\ step (L_thread a) s = None) /\
  (main_pc s = InRun ->
   step L_run s = None /\ step L_init s = None /\
   l_startupCritSect s <> Some OwnMain /\
   (forall a, l_startupCritSect s = Some (OwnThread a) ->
      exists t, threads s !! a = Some t /\ t_pc t = AtLeaveStartup /\
                exists s', step (L_thread a) s = Some s' /\
                           l_startupCritSect s' = None) /\
   (forall a t, threads s !! a = Some t -> t_pc t = AtLeaveStartup ->
      l_startupCritSect s = Some (OwnThread a)) /\
   (l_startupCritSect s = None ->
    forall a t, threads s !! a = Some t -> t_pc t = AtEnterStartup ->
      exists s', step (L_thread a) s = Some s' /\
                 l_startupCritSect s' = Some (OwnThread a))).



(** The QActive::start of [a] has returned: no handle is waiting to be
    stored in its [m_thread]. *)
Definition start_returned (a : AOPtr) (s : Sys) : Prop :=
  starting s !! a = None.


(** A thread is in the registry from its start until it has executed
    QF::remove_. *)
Definition registered_pc (pc : ThreadPc) : bool :=
  match pc with
  | AtCloseHandle | Returned => false
  | _ => true
  end.



(** The registry and the threads agree. *)
Definition registry_inv `{QFConfig} (s : Sys) : Prop :=
  (main_pc s = BeforeInit -> threads s = ∅) /\
  (forall a t, threads s !! a = Some t -> registered_pc (t_pc t) = true ->
               active_ (qf s) !! m_prio (t_act t) = Some a) /\
  (forall p a, active_ (qf s) !! p = Some a ->
               (1 <= p <= QF_MAX_ACTIVE)%Z /\
               exists t, threads s !! a = Some t /\ m_prio (t_act t) = p /\
                         registered_pc (t_pc t) = true).

(** ** Data for the examples *)

(** Every event is pooled and referenced once; the active object has one
    event pending. *)
Definition heap0 : Heap := fun p => mkQEvt p 1 1.
Definition world0 : World := mkWorld heap0 0 [].
Definition ao0 : QActive := mkQActive (mkQEQueue [3] 4) 1 0%Z 0%Z.

(** An active object whose inbox is full. *)
Definition ao_full : QActive := mkQActive (mkQEQueue [3] 1) 1 0%Z 0%Z.

(** The Win32 port with its 63 priorities, an object that was never
    started, a well-formed call, and the answers of a Win32 that creates
    what it is asked for. *)
Definition win32_config : QFConfig := {| QF_MAX_ACTIVE := 63 |}.
Definition ao_fresh : QActive := mkQActive (mkQEQueue [] 0) 0%Z 0%Z 0%Z.
Definition args0 : StartArgs := mkStartArgs 1%Z 4096%Z 8%Z 0%Z 0%Z 0.
Definition os0 : Win32 := mkWin32 500%Z 600%Z.

(** A schedule: QF::init, one start from beginning to end, one post to the
    new active object. *)
Definition sch_startup : list Label :=
  [L_init; L_start os0 6 ao_fresh args0; L_store 6; L_post 6 9].

(** The same with QF::run taken, and the thread past the gate. *)
Definition sch_released : list Label :=
  sch_startup ++ [L_run; L_thread 6].
Definition sys_released : Sys :=
  default sys_boot (@exec win32_config sch_released sys_boot).

(** A schedule that leaves the thread of the active object 6 in its loop,
    about to take event 9 from its inbox. *)
Definition sch_running : list Label :=
  sch_startup ++ [L_run; L_thread 6; L_thread 6].

(** The states of that example: the system after [sch_running], the thread
    of the active object 6 in it, and the system after a stop followed by
    the seven statements of the thread, with a post in between. *)
Definition sys_running : Sys :=
  default sys_boot (@exec win32_config sch_running sys_boot).
Definition sch_stop : list Label :=
  [L_thread 6; L_post 6 11; L_thread 6; L_thread 6; L_thread 6; L_thread 6;
   L_thread 6; L_thread 6].
Definition sys_stopped : Sys :=
  default sys_boot (@exec win32_config (L_stop 6 :: sch_stop) sys_running).

(** An active object started while QF runs: its thread is created, finds
    event 9 in the inbox and is dispatching it, and the QActive::start that
    created it has not yet stored the handle. *)
Definition sch_late_start : list Label :=
  [L_init; L_run; L_start os0 6 ao_fresh args0; L_post 6 9;
   L_thread 6; L_thread 6; L_thread 6].


(** * Further code of the two files *)

(** ** Sequences of deferrals and recalls *)

(** Every pooled event of [l] is referenced at least once. *)
Definition live_in (w : World) (l : list EvtPtr) : Prop :=
  Forall (fun e => pooled w e = true -> 1 <= refCtr_ (heap w e)) l.

(** The number of times [p] occurs in [l]. *)
Fixpoint occurrences (p : EvtPtr) (l : list EvtPtr) : nat :=
  match l with
  | [] => 0
  | e :: l' => (if bool_decide (e = p) then 1 else 0) + occurrences p l'
  end.

(** The events of [l] deferred to the same side queue one after another,
    with the answer of each QActive::defer. *)
Fixpoint defer_all (l : list EvtPtr) (eq : QEQueue) (w : World)
  : outcome (list bool * QEQueue * World) :=
  match l with
  | [] => Done ([], eq, w)
  | e :: l' =>
      '(b, eq1, w1) ← QActive_defer eq e w;
      '(bs, eq2, w2) ← defer_all l' eq1 w1;
      Done (b :: bs, eq2, w2)
  end.

(** QActive::recall called on the same side queue until it answers
    [false], at most [fuel] times; the number of events recalled comes
    back with the final state. *)
Fixpoint recall_all (fuel : nat) (me : QActive) (eq : QEQueue) (w : World)
  : option (outcome (nat * QActive * QEQueue * World)) :=
  match fuel with
  | 0 => None
  | S fuel' =>
      match QActive_recall me eq w with
      | Assertion md id => Some (Assertion md id)
      | Done (false, me1, eq1, w1) => Some (Done (0, me1, eq1, w1))
      | Done (true, me1, eq1, w1) =>
          match recall_all fuel' me1 eq1 w1 with
          | Some (Done (n, me2, eq2, w2)) => Some (Done (S n, me2, eq2, w2))
          | r => r
          end
      end
  end.

(** ** qf_port.cpp: the ticker of QF::run, QF::stop and QF_setWin32Prio *)

(** The other two Win32 priority classes that QF::run chooses from. *)
Definition THREAD_PRIORITY_BELOW_NORMAL : Z := (-1)%Z.
Definition THREAD_PRIORITY_ABOVE_NORMAL : Z := 1%Z.

(** The priority class QF::run gives the ticker thread, from the hint in
    [l_tickPrio]. *)
Definition ticker_priority (tickPrio : Z) : Z :=
  if (tickPrio <? 33)%Z then THREAD_PRIORITY_BELOW_NORMAL
  else if (66 <? tickPrio)%Z then THREAD_PRIORITY_ABOVE_NORMAL
  else THREAD_PRIORITY_NORMAL.

(** [void QF::stop(void)] *)
Definition QF_stop (s : QF) : QF := set_isRunning false s.

(** What QF::run does, step by step. *)
Inductive RunStep : Type :=
| R_onStartup
| R_LeaveCriticalSection
| R_SetThreadPriority (threadPrio : Z)
| R_Sleep (msec : Z)
| R_onClockTick (n : nat)
| R_onCleanup
| R_QS_EXIT.

(** The callbacks of the application that QF::run calls.  They reach the
    file-scope variables of qf_port.cpp through QF::stop and
    QF_setTickRate, and may die in an assertion.  The clock-tick callback
    is given the number of the tick: it stands for everything that reaches
    the variables during that turn of the loop, a QF::stop from another
    thread included. *)
Record App : Type := mkApp {
  onStartup : QF -> outcome QF;
  QF_onClockTick : nat -> QF -> outcome QF;
  onCleanup : QF -> outcome QF
}.

(** The loop [do { Sleep(l_tickMsec); QF_onClockTick(); }
    while (l_isRunning)] of QF::run, from tick [n] on. *)
Fixpoint ticker_loop (fuel : nat) (app : App) (n : nat) (s : QF)
    (trail : list RunStep) : option (outcome (QF * list RunStep)) :=
  match fuel with
  | 0 => None
  | S fuel' =>
      let trail := trail ++ [R_Sleep (l_tickMsec s); R_onClockTick n] in
      match QF_onClockTick app n s with
      | Assertion md id => Some (Assertion md id)
      | Done s1 =>
          if l_isRunning s1
          then ticker_loop fuel' app (S n) s1 trail
          else Some (Done (s1, trail))
      end
  end.

(** [int_t QF::run(void)] as a whole, on the file-scope variables: the
    value returned, the variables and the steps taken; [None] when the
    fuel does not reach the end of the loop.  (What leaving the startup
    critical section does to the threads is [QF_run].) *)
Definition QF_run_all (fuel : nat) (app : App) (s : QF)
  : option (outcome (Z * QF * list RunStep)) :=
  match onStartup app s with
  | Assertion md id => Some (Assertion md id)
  | Done s =>
      let s := set_isRunning true s in
      let threadPrio := ticker_priority (l_tickPrio s) in
      let trail := [R_onStartup; R_LeaveCriticalSection;
                    R_SetThreadPriority threadPrio] in
      match ticker_loop fuel app 0 s trail with
      | None => None
      | Some (Assertion md id) => Some (Assertion md id)
      | Some (Done (s, trail)) =>
          match onCleanup app s with
          | Assertion md id => Some (Assertion md id)
          | Done s => Some (Done (0%Z, s, trail ++ [R_onCleanup; R_QS_EXIT]))
          end
      end
  end.

(** The turns of the ticker loop numbered [i], ..., [i + m - 1], each
    sleeping for what [msec] says. *)
Definition turns (msec : nat -> Z) (i m : nat) : list RunStep :=
  flat_map (fun k => [R_Sleep (msec k); R_onClockTick k]) (seq i m).

(** An application whose startup callback also calls QF::stop. *)
Definition stop_in_startup (app : App) : App :=
  mkApp (fun s => s1 ← onStartup app s; Done (QF_stop s1))
        (QF_onClockTick app) (onCleanup app).

(** [void QF_setWin32Prio(QActive *act, int_t win32Prio)]: [getThread()]
    is the member [m_thread], [getOsObject()] the member [m_osObject]. *)
Definition QF_setWin32Prio (act : QActive) (win32Prio : Z) (s : QF)
  : QActive * QF :=
  if (m_thread act =? 0)%Z
  then (set_osObject win32Prio act, s)
  else (act, log (E_SetThreadPriority (m_thread act) win32Prio) s).

(** An application for the examples: 100 ticks per second with priority
    hint 30, stopped by the callback of the third tick; and the variables
    as they are before and after that tick. *)
Definition app_demo : App :=
  mkApp (QF_setTickRate 100 30)
        (fun n s => Done (if n =? 2 then QF_stop s else s))
        (fun s => Done s).
Definition qf_ticking : QF := mkQF ∅ 10%Z 30%Z true [].
Definition qf_demo (k : nat) : QF :=
  if k <=? 2 then qf_ticking else QF_stop qf_ticking.

(** ** Invariants of the threads *)

(** The events posted to the active object [a] in a schedule, in order. *)
Fixpoint posted (a : AOPtr) (sch : list Label) : list EvtPtr :=
  match sch with
  | [] => []
  | L_post b e :: sch' =>
      if bool_decide (a = b) then e :: posted a sch' else posted a sch'
  | _ :: sch' => posted a sch'
  end.

(** No event is posted LIFO to the active object [a] in the schedule: its
    state machine recalls nothing. *)
Fixpoint lifo_free (a : AOPtr) (sch : list Label) : bool :=
  match sch with
  | [] => true
  | L_postLIFO b _ :: sch' => negb (bool_decide (a = b)) && lifo_free a sch'
  | _ :: sch' => lifo_free a sch'
  end.

(** The events the thread of [a] has dispatched, in order. *)
Fixpoint dispatched (a : AOPtr) (h : list Obs) : list EvtPtr :=
  match h with
  | [] => []
  | Dispatched b e :: h' =>
      if bool_decide (a = b) then e :: dispatched a h' else dispatched a h'
  | _ :: h' => dispatched a h'
  end.

(** The event a thread has taken from its inbox and not yet dispatched. *)
Definition in_flight (pc : ThreadPc) : list EvtPtr :=
  match pc with
  | AtDispatch e => [e]
  | _ => []
  end.

(** What became of the events [l] posted to the active object [a]: they
    are, in this order, the events dispatched, the one in flight and those
    still in the inbox; an object that was not started has none. *)
Definition fifo_inv (a : AOPtr) (l : list EvtPtr) (s : Sys) : Prop :=
  match threads s !! a with
  | Some t =>
      dispatched a (history s) ++ in_flight (t_pc t) ++
      items (m_eQueue (t_act t)) = l
  | None => dispatched a (history s) = [] /\ l = []
  end.

(** No QActive::stop of [a] occurs in the schedule. *)
Fixpoint stop_free (a : AOPtr) (sch : list Label) : bool :=
  match sch with
  | [] => true
  | L_stop b :: sch' => negb (bool_decide (a = b)) && stop_free a sch'
  | _ :: sch' => stop_free a sch'
  end.

(** The thread is at the startup gate or in its loop. *)
Definition in_loop (pc : ThreadPc) : bool :=
  match pc with
  | AtEnterStartup | AtLeaveStartup | AtGet | AtDispatch _ | AtGc _
  | AtWhile => true
  | _ => false
  end.

(** The active object [a] is started, its start has returned, and its
    thread is kept going: [m_thread] is not null and the thread is at the
    gate or in the loop. *)
Definition keeps_running (a : AOPtr) (s : Sys) : Prop :=
  start_returned a s /\
  exists t, threads s !! a = Some t /\
            m_thread (t_act t) <> 0%Z /\ in_loop (t_pc t) = true.

(** The handle of a start that has returned and was not followed by a stop
    is in [m_thread]. *)
Definition handle_stored (a : AOPtr) (s : Sys) : Prop :=
  forall t, threads s !! a = Some t -> start_returned a s ->
            m_thread (t_act t) <> 0%Z.

(** A schedule for the examples: two active objects at priorities 1 and 2,
    three posts, and the first object at work. *)
Definition sch_two : list Label :=
  [L_init; L_start os0 6 ao_fresh args0; L_store 6;
   L_start os0 7 ao_fresh (mkStartArgs 2%Z 4096%Z 8%Z 0%Z 0%Z 0); L_store 7;
   L_post 6 9; L_post 7 10; L_post 6 11; L_run;
   L_thread 6; L_thread 6; L_thread 6; L_thread 6; L_thread 6; L_thread 6;
   L_thread 6].
Definition sys_two : Sys :=
  default sys_boot (@exec win32_config sch_two sys_boot).
Definition thread_two : Thread :=
  default (mkThread ao_fresh Returned) (threads sys_two !! 6).

(** The first part of that schedule, up to the moment before QF::run, and
    the rest. *)
Definition sch_two_started : list Label := take 8 sch_two.
Definition sch_two_rest : list Label := drop 8 sch_two.
Definition sys_two_started : Sys :=
  default sys_boot (@exec win32_config sch_two_started sys_boot).

(** A schedule for the examples: one active object, started, run through
    one event, stopped, and about to remove itself from the registry. *)
Definition sch_reuse : list Label :=
  sch_running ++
  [L_thread 6; L_thread 6; L_stop 6; L_thread 6; L_thread 6; L_thread 6].
Definition sys_reuse : Sys :=
  default sys_boot (@exec win32_config sch_reuse sys_boot).
Definition thread_reuse : Thread :=
  default (mkThread ao_fresh Returned) (threads sys_reuse !! 6).

(** ** qf_port.cpp: the console *)

(** The console: the codes of the keys pressed and not yet read, oldest
    first. *)
Definition Console := list Z.

(** conio.h: [_kbhit()] tells whether a key is waiting, [_getch()] takes
    the oldest key and waits (has no result here) when there is none. *)
Definition _kbhit (c : Console) : bool :=
  match c with
  | [] => false
  | _ :: _ => true
  end.

Definition _getch (c : Console) : option (Z * Console) :=
  match c with
  | [] => None
  | k :: c' => Some (k, c')
  end.

(** [int QF_consoleGetKey(void)] *)
Definition QF_consoleGetKey (c : Console) : option (Z * Console) :=
  if _kbhit c then _getch c else Some (0%Z, c).

(** [int QF_consoleWaitForKey(void)] *)
Definition QF_consoleWaitForKey (c : Console) : option (Z * Console) :=
  _getch c.

(** QF_consoleGetKey called [n] times in a row. *)
Fixpoint poll (n : nat) (c : Console) : option (list Z * Console) :=
  match n with
  | 0 => Some ([], c)
  | S n' =>
      '(k, c1) ← QF_consoleGetKey c;
      '(ks, c2) ← poll n' c1;
      Some (k :: ks, c2)
  end.

(** * Properties *)

(** ** Reference counting *)

Lemma heap_set_eq (h : Heap) (e : EvtPtr) (v : QEvt) : heap_set h e v e = v.
Proof. unfold heap_set. by rewrite decide_True. Qed.

Lemma heap_set_ne (h : Heap) (e p : EvtPtr) (v : QEvt) :
  p <> e -> heap_set h e v p = h p.
Proof. intros Hne. unfold heap_set. by rewrite decide_False. Qed.

Lemma crit_exit_entry (w : World) : QF_CRIT_EXIT_ (QF_CRIT_ENTRY_ w) = w.
Proof. by destruct w. Qed.

Lemma pooled_crit_entry (w : World) (e : EvtPtr) :
  pooled (QF_CRIT_ENTRY_ w) e = pooled w e.
Proof. reflexivity. Qed.

(** What a hand-off does to the counters: the event handed off gains one
    reference when it is pooled, and nothing else moves. *)
Lemma hold_refCtr (e p : EvtPtr) (w : World) :
  refCtr_ (heap (hold e w) p) =
  if pooled w e && bool_decide (p = e)
  then S (refCtr_ (heap w p)) else refCtr_ (heap w p).
Proof.
  unfold hold. destruct (pooled w e) eqn:Hp; simpl; [|done].
  case_bool_decide as Hpe.
  - subst p. by rewrite heap_set_eq.
  - by rewrite heap_set_ne.
Qed.

Lemma hold_poolId (e p : EvtPtr) (w : World) :
  poolId_ (heap (hold e w) p) = poolId_ (heap w p).
Proof.
  unfold hold. destruct (pooled w e); simpl; [|done].
  destruct (decide (p = e)) as [->|Hne].
  - by rewrite heap_set_eq.
  - by rewrite heap_set_ne.
Qed.

Lemma hold_pooled (e p : EvtPtr) (w : World) :
  pooled (hold e w) p = pooled w p.
Proof. unfold pooled. by rewrite hold_poolId. Qed.

Lemma hold_critNest (e : EvtPtr) (w : World) :
  critNest (hold e w) = critNest w.
Proof. unfold hold. by destruct (pooled w e). Qed.

Lemma hold_static (e : EvtPtr) (w : World) :
  pooled w e = false -> hold e w = w.
Proof. intros Hp. unfold hold. by rewrite Hp. Qed.

(** A successful post changes the counters by exactly one hand-off. *)
Lemma post_done_true (q q' : QEQueue) (e : EvtPtr) (margin : nat) (w w' : World) :
  QEQueue_post q e margin w = Done (true, q', w') ->
  margin < nFree q /\ q' = mkQEQueue (items q ++ [e]) (capacity q) /\ w' = hold e w.
Proof.
  unfold QEQueue_post. destruct (margin <? nFree q) eqn:Hm; intros [= <- <-].
  apply Nat.ltb_lt in Hm. done.
Qed.

(** ** Deferral *)

Lemma released_refCtr (e p : EvtPtr) (w1 : World) :
  refCtr_ (heap (released e w1) p) =
  if bool_decide (p = e)
  then pred (refCtr_ (heap w1 p)) else refCtr_ (heap w1 p).
Proof.
  unfold released. simpl. case_bool_decide as Hpe.
  - subst p. by rewrite heap_set_eq.
  - by rewrite heap_set_ne.
Qed.

(** QActive::recall on a side queue with head [e], one branch at a time. *)
Lemma recall_cons (me : QActive) (e : EvtPtr) (rest : list EvtPtr)
    (cap : nat) (w : World) :
  QActive_recall me (mkQEQueue (e :: rest) cap) w =
  let me1 := set_eQueue (push_front e (m_eQueue me)) me in
  if 0 <? nFree (m_eQueue me) then
    if pooled w e then
      if 1 <? refCtr_ (heap (hold e w) e)
      then Done (true, me1, mkQEQueue rest cap, released e (hold e w))
      else Assertion qa_defer 210
    else Done (true, me1, mkQEQueue rest cap, w)
  else Assertion "qf_actq" 110.
Proof.
  unfold QActive_recall, QActive_postLIFO.
  cbn [QEQueue_get items mbind outcome_bind capacity].
  destruct (0 <? nFree (m_eQueue me)); [|done].
  cbn [Q_ASSERT_ID mbind outcome_bind].
  rewrite pooled_crit_entry, hold_pooled.
  destruct (pooled w e) eqn:Hp.
  - cbn [note heap QF_CRIT_ENTRY_].
    by destruct (1 <? refCtr_ (heap (hold e w) e)).
  - cbn [mbind outcome_bind]. rewrite crit_exit_entry.
    by rewrite (hold_static e w Hp).
Qed.

(** The LIFO post into an inbox with a free slot. *)
Lemma postLIFO_room (me : QActive) (e : EvtPtr) (w : World) :
  1 <= nFree (m_eQueue me) ->
  QActive_postLIFO me e w
  = Done (set_eQueue (push_front e (m_eQueue me)) me, hold e w).
Proof.
  intros Hroom. unfold QActive_postLIFO.
  apply Nat.ltb_lt in Hroom. by rewrite Hroom.
Qed.

(** C5: QActive::defer never ends in an assertion.  It posts [e] to the side
    queue with margin 1 and hands the answer of the post back: [true], with
    [e] appended and held once more, when more than one slot is free, and
    [false], with queue and events untouched, when the queue cannot take
    the event. *)
Theorem defer_reports_overflow (eq : QEQueue) (e : EvtPtr) (w : World) :
  ~ aborts (QActive_defer eq e w) /\
  QActive_defer eq e w = QEQueue_post eq e 1 w /\
  exists b eq' w',
    QActive_defer eq e w = Done (b, eq', w') /\
    (b = true <-> 1 < nFree eq) /\
    (if b
     then items eq' = items eq ++ [e] /\ capacity eq' = capacity eq /\
          w' = hold e w
     else eq' = eq /\ w' = w).
Proof.
  unfold QActive_defer, QEQueue_post, aborts.
  destruct (1 <? nFree eq) eqn:Hfree.
  - apply Nat.ltb_lt in Hfree. split; [by intros (md & id & ?)|].
    split; [done|]. eexists true, _, _. split; [done|]. simpl. tauto.
  - apply Nat.ltb_ge in Hfree. split; [by intros (md & id & ?)|].
    split; [done|]. eexists false, _, _. split; [done|]. simpl.
    split; [|done]. split; [done|lia].
Qed.

(** C6: QActive::recall on an empty side queue returns [false] and leaves
    the side queue, the active object with its inbox, and the whole event
    memory (counters, critical section, access history) as they were; no
    assertion is raised. *)
Theorem recall_empty (me : QActive) (cap : nat) (w : World) :
  QActive_recall me (mkQEQueue [] cap) w
  = Done (false, me, mkQEQueue [] cap, w).
Proof. reflexivity. Qed.

(** C2, as amended: when the inbox of the active object has a free slot,
    QActive::recall on a side queue whose head is [e] takes [e] out, posts
    it LIFO to the inbox and then, inside the critical section: for a
    pooled [e], dies in assertion 210 of qa_defer unless the counter is
    above 1, and otherwise takes exactly one reference off; for a static
    [e], neither reads nor writes the counter.  When it does not die it
    returns [true]. *)
Theorem recall_found (me : QActive) (e : EvtPtr) (rest : list EvtPtr)
    (cap : nat) (w : World) :
  1 <= nFree (m_eQueue me) -> recall_takes_head me e rest cap w.
Proof.
  intros Hroom. unfold recall_takes_head.
  eexists _, _. split; [by apply postLIFO_room|].
  split; [reflexivity|]. split; [reflexivity|].
  cbv zeta. rewrite recall_cons. cbv zeta.
  apply Nat.ltb_lt in Hroom. rewrite Hroom.
  destruct (pooled w e) eqn:Hp.
  - destruct (1 <? refCtr_ (heap (hold e w) e)) eqn:Href; [|done].
    apply Nat.ltb_lt in Href.
    eexists. split; [reflexivity|].
    unfold released.
    cbn [QF_CRIT_EXIT_ QF_EVT_REF_CTR_DEC_ set_refCtr heap note critNest
           accesses QF_CRIT_ENTRY_ in_crit Nat.eqb negb Nat.pred].
    rewrite heap_set_eq. cbn [refCtr_ poolId_ sig].
    split_and!; try done.
    + lia.
    + intros p Hne. by rewrite heap_set_ne.
    + by rewrite <- app_assoc.
  - by rewrite (hold_static e w Hp).
Qed.

Lemma recall_found_witness :
  1 <= nFree (m_eQueue ao0) /\ recall_takes_head ao0 7 [9] 4 world0.
Proof.
  assert (Hroom : 1 <= nFree (m_eQueue ao0)) by (unfold nFree; simpl; lia).
  split; [exact Hroom|].
  exact (recall_found ao0 7 [9] 4 world0 Hroom).
Defined.

(** The recall of the example: event 7 moves from the side queue to the head
    of the inbox and is referenced once, as before. *)
Example recall_moves_head :
  exists w',
    QActive_recall ao0 (mkQEQueue [7; 9] 4) world0
    = Done (true, mkQActive (mkQEQueue [7; 3] 4) 1 0%Z 0%Z,
            mkQEQueue [9] 4, w') /\
    refCtr_ (heap w' 7) = 1.
Proof. by eexists. Qed.

(** C2, as first stated, fails: with a full inbox the event at the head of
    a side queue that is not empty cannot be posted LIFO, and the recall
    does not return [true]; it does not return at all. *)
Lemma recall_found_counterexample :
  ~ recall_takes_head_always /\
  (items (mkQEQueue [7] 4) <> [] /\
   nFree (m_eQueue ao_full) = 0 /\
   ~ returns (QActive_postLIFO ao_full 7 world0) /\
   ~ returns (QActive_recall ao_full (mkQEQueue [7] 4) world0) /\
   ~ recall_takes_head ao_full 7 [] 4 world0).
Proof.
  assert (Hpost : ~ returns (QActive_postLIFO ao_full 7 world0)).
  { by intros [? ?]. }
  assert (Hfull : ~ recall_takes_head ao_full 7 [] 4 world0).
  { intros (me1 & w1 & Hp & _). apply Hpost. by eexists. }
  split; [intros Hall; apply Hfull, Hall|].
  split; [done|]. split; [reflexivity|]. split; [done|].
  split; [|done]. by intros [? ?].
Qed.

(** C1, as amended: on an empty side queue with more than one free slot,
    and with a free slot in the inbox, a defer of [e] immediately followed
    by a recall succeeds, puts [e] at the head of the inbox in front of
    everything that was pending there, and leaves every reference counter
    as a successful plain post of [e] would have left it: the reference
    taken on entering the side queue is the one the recall gives back. *)
Theorem defer_recall_roundtrip (me : QActive) (eq : QEQueue) (e : EvtPtr)
    (w : World) :
  items eq = [] -> 1 < nFree eq -> 1 <= nFree (m_eQueue me) ->
  roundtrips me eq e w.
Proof.
  intros Hempty Hfree Hroom. unfold roundtrips, QActive_defer, QEQueue_post.
  apply Nat.ltb_lt in Hfree. rewrite Hfree, Hempty. cbn [app].
  apply Nat.ltb_lt in Hroom.
  destruct (pooled w e) eqn:Hp.
  - assert (Htwo : (1 <? refCtr_ (heap (hold e (hold e w)) e)) = true).
    { apply Nat.ltb_lt. rewrite !hold_refCtr, hold_pooled, Hp.
      rewrite bool_decide_eq_true_2 by done. simpl. lia. }
    eexists _, _, _, _, _. split; [reflexivity|].
    rewrite recall_cons. cbv zeta. rewrite Hroom, hold_pooled, Hp, Htwo.
    split; [reflexivity|]. split; [done|]. split; [done|].
    intros q margin q' w' Hpost p.
    apply post_done_true in Hpost as (_ & _ & ->).
    rewrite released_refCtr, !hold_refCtr, hold_pooled, Hp. simpl.
    by case_bool_decide.
  - eexists _, _, _, _, _. split; [reflexivity|].
    rewrite recall_cons. cbv zeta. rewrite Hroom, hold_pooled, Hp.
    split; [reflexivity|]. split; [done|]. split; [done|].
    intros q margin q' w' Hpost p.
    apply post_done_true in Hpost as (_ & _ & ->).
    by rewrite (hold_static e w Hp).
Qed.

Lemma defer_recall_roundtrip_witness :
  items (mkQEQueue [] 2) = [] /\ 1 < nFree (mkQEQueue [] 2) /\
  1 <= nFree (m_eQueue ao0) /\
  roundtrips ao0 (mkQEQueue [] 2) 9 world0.
Proof.
  split; [reflexivity|]. split; [unfold nFree; simpl; lia|].
  split; [unfold nFree; simpl; lia|].
  apply (defer_recall_roundtrip ao0 (mkQEQueue [] 2) 9 world0);
    [reflexivity | unfold nFree; simpl; lia | unfold nFree; simpl; lia].
Defined.

(** A side queue that already holds event 7 gives back 7, not the event
    just deferred. *)
Example recall_takes_oldest :
  exists eq1 w1 eq2 w2,
    QActive_defer (mkQEQueue [7] 4) 9 world0 = Done (true, eq1, w1) /\
    QActive_recall ao0 eq1 w1
    = Done (true, mkQActive (mkQEQueue [7; 3] 4) 1 0%Z 0%Z, eq2, w2) /\
    items eq2 = [9].
Proof. by eexists _, _, _, _. Qed.

(** With a single free slot the margin of one that defer asks for is not
    there: the defer fails and there is nothing to recall. *)
Example defer_needs_two_free_slots :
  QActive_defer (mkQEQueue [] 1) 9 world0 = Done (false, mkQEQueue [] 1, world0) /\
  QActive_recall ao0 (mkQEQueue [] 1) world0
  = Done (false, ao0, mkQEQueue [] 1, world0).
Proof. done. Qed.

(** C1, as first stated, fails: with one free slot the defer itself fails;
    on a side queue that is not empty the recall brings back the oldest
    deferred event instead of [e]; and when the inbox is full the event
    deferred cannot come back to it. *)
Lemma defer_recall_roundtrip_counterexample :
  ~ roundtrips_with_one_free_slot /\
  (1 <= nFree (mkQEQueue [7] 4) /\
   ~ roundtrips ao0 (mkQEQueue [7] 4) 9 world0) /\
  (1 <= nFree (mkQEQueue [] 1) /\
   ~ roundtrips ao0 (mkQEQueue [] 1) 9 world0) /\
  (1 <= nFree (mkQEQueue [] 2) /\
   ~ roundtrips ao_full (mkQEQueue [] 2) 9 world0).
Proof.
  assert (Hfifo : ~ roundtrips ao0 (mkQEQueue [7] 4) 9 world0).
  { intros (eq1 & w1 & me2 & eq2 & w2 & Hd & Hr & Hnext & _).
    injection Hd as <- <-. injection Hr as <- _ _. discriminate Hnext. }
  assert (Hfull : ~ roundtrips ao0 (mkQEQueue [] 1) 9 world0).
  { intros (eq1 & w1 & me2 & eq2 & w2 & Hd & _). discriminate Hd. }
  assert (Hinbox : ~ roundtrips ao_full (mkQEQueue [] 2) 9 world0).
  { intros (eq1 & w1 & me2 & eq2 & w2 & Hd & Hr & _).
    injection Hd as <- <-. discriminate Hr. }
  split; [|split; [|split]; (split; [unfold nFree; simpl; lia|done])].
  intros Hall. apply Hfifo, Hall. unfold nFree; simpl; lia.
Qed.

(** ** Starting an active object *)

(** The four ways through QActive::start: it dies in the precondition 700,
    in the registration, in the assertion 730 on the thread handle, or it
    returns. *)
Lemma start_cases `{QFConfig} (os : Win32) (this : AOPtr) (me : QActive)
    (args : StartArgs) (s : QF) :
  let r := QActive_start os this me args s in
  ((~ prio_in_range args \/ ~ no_stack_storage args) /\
   r = Assertion qf_port 700) \/
  (prio_in_range args /\ no_stack_storage args /\ ~ slot_free args s /\
   r = Assertion "qf_act" 100) \/
  (prio_in_range args /\ no_stack_storage args /\ slot_free args s /\
   ~ thread_created os /\ r = Assertion qf_port 730) \/
  (prio_in_range args /\ no_stack_storage args /\ slot_free args s /\
   thread_created os /\
   exists me' s', r = Done (me', s') /\ started os this me args s me' s').
Proof.
  destruct me as [q0 p0 o0 h0], args as [prio qSto qLen stkSto stkSize ie],
    s as [act msec tprio run efs], os as [hEvent hThread].
  unfold prio_in_range, no_stack_storage, slot_free, thread_created.
  cbv zeta. unfold QActive_start.
  cbn [a_prio a_qSto a_qLen a_stkSto a_stkSize a_ie active_ CreateThread_
       CreateEvent_].
  destruct (0 <? prio)%Z eqn:Hlo; cycle 1.
  { left. split; [|done]. apply Z.ltb_ge in Hlo. left. lia. }
  destruct (prio <=? QF_MAX_ACTIVE)%Z eqn:Hhi; cycle 1.
  { left. split; [|done]. apply Z.leb_gt in Hhi. left. lia. }
  destruct (stkSto =? 0)%Z eqn:Hstk; cycle 1.
  { left. split; [|done]. apply Z.eqb_neq in Hstk. by right. }
  apply Z.ltb_lt in Hlo. apply Z.leb_le in Hhi. apply Z.eqb_eq in Hstk.
  right. cbn [andb Q_REQUIRE_ID Q_ASSERT_ID mbind outcome_bind].
  unfold QF_add_. cbn [set_prio set_eQueue m_prio log active_].
  case_bool_decide as Hslot; cycle 1.
  { left. split; [lia|]. done. }
  right. cbn [Q_REQUIRE_ID Q_ASSERT_ID mbind outcome_bind set_thread m_thread
    set_osObject m_osObject].
  destruct (hThread =? 0)%Z eqn:Hthr.
  { apply Z.eqb_eq in Hthr. left. split; [lia|]. split; [done|].
    split; [done|]. split; [by intros []|done]. }
  apply Z.eqb_neq in Hthr. right. split; [lia|]. do 3 (split; [done|]).
  cbn [negb mbind outcome_bind]. eexists _, _. split; [reflexivity|].
  unfold started, start_steps, THREAD_PRIORITY_NORMAL.
  destruct (o0 =? 0)%Z eqn:Hos; simpl; rewrite ?Hos; simpl;
    rewrite <- ?app_assoc; by split_and!.
Qed.

(** C7, as amended: QActive::start dies in a fatal assertion exactly when
    the priority is outside [1, QF_MAX_ACTIVE], or stack storage is passed
    (the port wants none), or the registry slot of the priority is taken,
    or the thread cannot be created; otherwise it returns.  A start that
    dies hands nothing back: there is no partly started object to recover. *)
Theorem start_aborts_iff `{QFConfig} (os : Win32) (this : AOPtr)
    (me : QActive) (args : StartArgs) (s : QF) :
  let r := QActive_start os this me args s in
  (aborts r <->
   ~ prio_in_range args \/ ~ no_stack_storage args \/
   ~ slot_free args s \/ ~ thread_created os) /\
  (returns r <->
   prio_in_range args /\ no_stack_storage args /\
   slot_free args s /\ thread_created os) /\
  ~ (aborts r /\ returns r).
Proof.
  cbv zeta. unfold aborts, returns.
  destruct (start_cases os this me args s)
    as [[Hv ->]|[(Hp & Hk & Hf & ->)|[(Hp & Hk & Hf & Ht & ->)
       |(Hp & Hk & Hf & Ht & me' & s' & -> & _)]]].
  - split_and!.
    + split; [tauto|]. intros _. by eexists _, _.
    + split; [by intros [? ?]|tauto].
    + by intros [_ [? ?]].
  - split_and!.
    + split; [tauto|]. intros _. by eexists _, _.
    + split; [by intros [? ?]|tauto].
    + by intros [_ [? ?]].
  - split_and!.
    + split; [tauto|]. intros _. by eexists _, _.
    + split; [by intros [? ?]|tauto].
    + by intros [_ [? ?]].
  - split_and!.
    + split; [by intros (? & ? & ?)|tauto].
    + split; [tauto|]. intros _. by eexists.
    + by intros [(? & ? & ?) _].
Qed.

(** A start on a priority that is already registered dies although the
    priority is in range, no stack storage is passed and the thread could be
    created. *)
Example start_on_taken_priority :
  @QActive_start win32_config os0 6 ao_fresh args0
                 (set_active_ {[1%Z := 5]} qf_boot)
  = Assertion "qf_act" 100.
Proof. reflexivity. Qed.

(** A start that passes no inbox storage at all goes through: the storage
    that QActive::start checks is the stack storage, which must be absent. *)
Example start_without_inbox_storage :
  returns (@QActive_start win32_config os0 6 ao_fresh
                          (mkStartArgs 1%Z 0%Z 0%Z 0%Z 0%Z 0) qf_boot).
Proof. by eexists. Qed.

(** C7, as first stated, fails: a taken registry slot is a fourth cause. *)
Lemma start_aborts_counterexample :
  ~ start_aborts_on_three_causes /\
  (aborts (@QActive_start win32_config os0 6 ao_fresh args0
                          (set_active_ {[1%Z := 5]} qf_boot)) /\
   @prio_in_range win32_config args0 /\ no_stack_storage args0 /\
   thread_created os0).
Proof.
  assert (Hdead : aborts (@QActive_start win32_config os0 6 ao_fresh args0
                            (set_active_ {[1%Z := 5]} qf_boot))).
  { by eexists _, _. }
  assert (Hrange : @prio_in_range win32_config args0).
  { unfold prio_in_range. simpl. lia. }
  split; [|done].
  intros Hclaim. apply (Hclaim win32_config) in Hdead.
  destruct Hdead as [Hd|[Hd|Hd]]; by apply Hd.
Qed.

(** C8: a start that goes through has taken its steps in this order: the
    inbox is initialized with the storage and the length passed, the
    priority is recorded, the object is registered, (the Win32 event is
    created,) the initial transition is run with the initial event, and
    only then is the thread created; all that may follow is the setting of
    the Win32 priority of that thread. *)
Theorem start_order `{QFConfig} (os : Win32) (this : AOPtr)
    (me me' : QActive) (args : StartArgs) (s s' : QF) :
  QActive_start os this me args s = Done (me', s') ->
  exists stkSize tail,
    effects s' = effects s ++
      [ E_eQueue_init (a_qSto args) (a_qLen args);
        E_set_prio (a_prio args);
        E_add_ this (a_prio args);
        E_CreateEvent;
        E_init (a_ie args);
        E_QS_FLUSH;
        E_CreateThread stkSize this ] ++ tail /\
    (tail = [] \/ exists p, tail = [E_SetThreadPriority (m_thread me') p]) /\
    m_eQueue me' = QEQueue_init (Z.to_nat (a_qLen args)) /\
    m_prio me' = a_prio args /\
    active_ s' !! a_prio args = Some this /\
    m_thread me' <> 0%Z.
Proof.
  intros Hdone.
  destruct (start_cases os this me args s)
    as [[_ Hr]|[(_ & _ & _ & Hr)|[(_ & _ & _ & _ & Hr)
       |(_ & _ & _ & Ht & me1 & s1 & Hr & Hs)]]];
    cbv zeta in Hr; rewrite Hr in Hdone; try discriminate Hdone.
  injection Hdone as <- <-.
  destruct Hs as (Hq & Hprio & _ & Hthr & Hact & _ & _ & _ & Heff).
  eexists _, _. split; [exact Heff|].
  split_and!; try done.
  - destruct (m_osObject me =? 0)%Z; [by left|right]. rewrite Hthr. by eexists.
  - rewrite Hact. apply lookup_insert_eq.
  - by rewrite Hthr.
Qed.

Lemma start_order_witness :
  exists me' s',
    @QActive_start win32_config os0 6 ao_fresh args0 qf_boot = Done (me', s') /\
    exists stkSize tail,
      effects s' = effects qf_boot ++
        [ E_eQueue_init (a_qSto args0) (a_qLen args0);
          E_set_prio (a_prio args0);
          E_add_ 6 (a_prio args0);
          E_CreateEvent;
          E_init (a_ie args0);
          E_QS_FLUSH;
          E_CreateThread stkSize 6 ] ++ tail /\
      (tail = [] \/ exists p, tail = [E_SetThreadPriority (m_thread me') p]) /\
      m_eQueue me' = QEQueue_init (Z.to_nat (a_qLen args0)) /\
      m_prio me' = a_prio args0 /\
      active_ s' !! a_prio args0 = Some 6 /\
      m_thread me' <> 0%Z.
Proof.
  eexists _, _. split; [reflexivity|].
  apply (@start_order win32_config os0 6 ao_fresh _ args0 qf_boot _).
  reflexivity.
Defined.

Lemma thread_requests_app (l1 l2 : list Effect) :
  thread_requests (l1 ++ l2) = thread_requests l1 ++ thread_requests l2.
Proof. apply omap_app. Qed.

(** C10: a start that goes through creates exactly one thread; the stack
    size it asks for is 1024 when the stack-size argument is 0, and the
    argument itself otherwise. *)
Theorem start_stack_size `{QFConfig} (os : Win32) (this : AOPtr)
    (me me' : QActive) (args : StartArgs) (s s' : QF) :
  QActive_start os this me args s = Done (me', s') ->
  exists stkSize,
    thread_requests (effects s') = thread_requests (effects s) ++ [stkSize] /\
    (a_stkSize args = 0%Z -> stkSize = 1024%Z) /\
    (a_stkSize args <> 0%Z -> stkSize = a_stkSize args).
Proof.
  intros Hdone.
  destruct (start_cases os this me args s)
    as [[_ Hr]|[(_ & _ & _ & Hr)|[(_ & _ & _ & _ & Hr)
       |(_ & _ & _ & _ & me1 & s1 & Hr & Hs)]]];
    cbv zeta in Hr; rewrite Hr in Hdone; try discriminate Hdone.
  injection Hdone as <- <-.
  destruct Hs as (_ & _ & _ & _ & _ & _ & _ & _ & Heff).
  exists (if (a_stkSize args =? 0)%Z then 1024%Z else a_stkSize args).
  split.
  - rewrite Heff, !thread_requests_app. f_equal.
    unfold start_steps. by destruct (m_osObject me =? 0)%Z.
  - split.
    + by intros ->.
    + intros Hne. apply Z.eqb_neq in Hne. by rewrite Hne.
Qed.

Lemma start_stack_size_witness :
  exists me' s',
    @QActive_start win32_config os0 6 ao_fresh args0 qf_boot = Done (me', s') /\
    a_stkSize args0 = 0%Z /\
    exists stkSize,
      thread_requests (effects s') = thread_requests (effects qf_boot) ++ [stkSize] /\
      (a_stkSize args0 = 0%Z -> stkSize = 1024%Z) /\
      (a_stkSize args0 <> 0%Z -> stkSize = a_stkSize args0).
Proof.
  eexists _, _. split; [reflexivity|]. split; [reflexivity|].
  eapply (@start_stack_size win32_config os0 6 ao_fresh _ args0 qf_boot _).
  reflexivity.
Defined.

(** A stack size that is given is passed on as it is. *)
Example start_with_stack_size :
  exists me' s',
    @QActive_start win32_config os0 6 ao_fresh
                   (mkStartArgs 1%Z 4096%Z 8%Z 0%Z 2048%Z 0) qf_boot
    = Done (me', s') /\
    thread_requests (effects s') = [2048%Z].
Proof. by eexists _, _. Qed.

(** ** The tick rate *)

(** C9: QF_setTickRate with a rate of 0 dies in assertion 600 of qf_port,
    whatever the state of the framework and so also before any thread is
    created, and touches nothing; with any other rate it sets the sleep
    period of the ticker to 1000 / ticksPerSec milliseconds (integer
    division), records the priority hint of the ticker thread, and leaves
    the rest of the framework, threads included, alone. *)
Theorem setTickRate_rate (ticksPerSec tickPrio : Z) (s : QF) :
  (0 <= ticksPerSec < 2 ^ 32)%Z ->
  if (ticksPerSec =? 0)%Z
  then QF_setTickRate ticksPerSec tickPrio s = Assertion qf_port 600
  else exists s',
         QF_setTickRate ticksPerSec tickPrio s = Done s' /\
         l_tickMsec s' = (1000 / ticksPerSec)%Z /\
         l_tickPrio s' = tickPrio /\
         active_ s' = active_ s /\
         l_isRunning s' = l_isRunning s /\
         effects s' = effects s.
Proof.
  intros Hrange. unfold QF_setTickRate.
  destruct (ticksPerSec =? 0)%Z eqn:Hz; [done|].
  apply Z.eqb_neq in Hz.
  eexists. split; [reflexivity|]. split_and!; try done.
  cbn [l_tickMsec]. unfold wrap32. apply Z.mod_small.
  split; [apply Z.div_pos; lia|].
  apply Z.le_lt_trans with 1000%Z; [|done].
  apply Z.div_le_upper_bound; nia.
Qed.

Lemma setTickRate_rate_witness :
  (0 <= 100 < 2 ^ 32)%Z /\
  exists s',
    QF_setTickRate 100 30 qf_boot = Done s' /\
    l_tickMsec s' = (1000 / 100)%Z /\
    l_tickPrio s' = 30%Z /\
    active_ s' = active_ qf_boot /\
    l_isRunning s' = l_isRunning qf_boot /\
    effects s' = effects qf_boot.
Proof.
  split; [lia|].
  apply (setTickRate_rate 100 30 qf_boot). lia.
Defined.

Example setTickRate_zero (tickPrio : Z) (s : QF) :
  QF_setTickRate 0 tickPrio s = Assertion qf_port 600.
Proof. reflexivity. Qed.

Example setTickRate_three_per_second :
  QF_setTickRate 3 50 qf_boot = Done (mkQF ∅ 333 50 false []).
Proof. reflexivity. Qed.

(** ** The two parts of a start *)

(** The three ways through the first part of QActive::start: it dies in
    the precondition 700 or in the registration, or it reaches the call of
    CreateThread. *)
Lemma start_create_cases `{QFConfig} (os : Win32) (this : AOPtr)
    (me : QActive) (args : StartArgs) (s : QF) :
  let r := QActive_start_create os this me args s in
  ((~ prio_in_range args \/ ~ no_stack_storage args) /\
   r = Assertion qf_port 700) \/
  (prio_in_range args /\ no_stack_storage args /\ ~ slot_free args s /\
   r = Assertion "qf_act" 100) \/
  (prio_in_range args /\ no_stack_storage args /\ slot_free args s /\
   exists me1 s1,
     r = Done (me1, s1, if (m_osObject me =? 0)%Z
                        then THREAD_PRIORITY_NORMAL else m_osObject me) /\
     created os this me args s me1 s1).
Proof.
  destruct me as [q0 p0 o0 h0], args as [prio qSto qLen stkSto stkSize ie],
    s as [act msec tprio run efs], os as [hEvent hThread].
  unfold prio_in_range, no_stack_storage, slot_free.
  cbv zeta. unfold QActive_start_create.
  cbn [a_prio a_qSto a_qLen a_stkSto a_stkSize a_ie active_ CreateThread_
       CreateEvent_].
  destruct (0 <? prio)%Z eqn:Hlo; cycle 1.
  { left. split; [|done]. apply Z.ltb_ge in Hlo. left. lia. }
  destruct (prio <=? QF_MAX_ACTIVE)%Z eqn:Hhi; cycle 1.
  { left. split; [|done]. apply Z.leb_gt in Hhi. left. lia. }
  destruct (stkSto =? 0)%Z eqn:Hstk; cycle 1.
  { left. split; [|done]. apply Z.eqb_neq in Hstk. by right. }
  apply Z.ltb_lt in Hlo. apply Z.leb_le in Hhi. apply Z.eqb_eq in Hstk.
  right. cbn [andb Q_REQUIRE_ID Q_ASSERT_ID mbind outcome_bind].
  unfold QF_add_. cbn [set_prio set_eQueue m_prio log active_].
  case_bool_decide as Hslot; cycle 1.
  { left. split; [lia|]. done. }
  right. cbn [Q_REQUIRE_ID Q_ASSERT_ID mbind outcome_bind set_thread m_thread
    set_osObject m_osObject].
  split; [lia|]. do 2 (split; [done|]).
  eexists _, _. split; [reflexivity|].
  unfold created, start_steps. simpl. rewrite <- ?app_assoc. by split_and!.
Qed.

(** QActive::start is its first part followed by its second. *)
Lemma start_in_two_parts `{QFConfig} (os : Win32) (this : AOPtr)
    (me : QActive) (args : StartArgs) (s : QF) :
  QActive_start os this me args s
  = '(me1, s1, win32Prio) ← QActive_start_create os this me args s;
    QActive_start_store os win32Prio me1 s1.
Proof.
  unfold QActive_start, QActive_start_create, QActive_start_store.
  destruct (Q_REQUIRE_ID qf_port 700 _) as [[]|]; [|done].
  cbn [mbind outcome_bind].
  by destruct (QF_add_ this _ _).
Qed.

(** The second part of a start stores a handle that is not null, or dies. *)
Lemma start_store_cases (os : Win32) (win32Prio : Z) (me : QActive) (s : QF) :
  (CreateThread_ os = 0%Z /\
   QActive_start_store os win32Prio me s = Assertion qf_port 730) \/
  (CreateThread_ os <> 0%Z /\
   QActive_start_store os win32Prio me s
   = Done (set_thread (CreateThread_ os) me,
           if negb (win32Prio =? 0)%Z
           then log (E_SetThreadPriority (CreateThread_ os) win32Prio) s
           else s)).
Proof.
  unfold QActive_start_store. cbn [set_thread m_thread].
  destruct (CreateThread_ os =? 0)%Z eqn:Hthr.
  - left. by apply Z.eqb_eq in Hthr.
  - right. by apply Z.eqb_neq in Hthr.
Qed.

(** ** The moves of the system *)

(** Case analysis on whatever a step still branches on. *)
Ltac case_step H :=
  repeat match type of H with
         | context [match ?x with _ => _ end] => destruct x
         end;
  try discriminate H.

Section Moves.
Context `{QFConfig}.

(** The first part of a start, as a move. *)
Lemma step_start_inv (os : Win32) (b : AOPtr) (me : QActive)
    (args : StartArgs) (s s' : Sys) :
  step (L_start os b me args) s = Some s' ->
  main_pc s <> BeforeInit /\ threads s !! b = None /\
  CreateThread_ os <> 0%Z /\
  prio_in_range args /\ slot_free args (qf s) /\
  exists me1 q1 win32Prio,
    QActive_start_create os b me args (qf s) = Done (me1, q1, win32Prio) /\
    created os b me args (qf s) me1 q1 /\
    s' = set_starting (<[b := (os, win32Prio)]> (starting s))
           (set_thread_of b (mkThread me1 AtEnterStartup) (set_qf q1 s)).
Proof.
  intros Hstep. simpl in Hstep.
  assert (Hpc : main_pc s <> BeforeInit).
  { intros Hpc. by rewrite Hpc in Hstep. }
  destruct (threads s !! b) eqn:Htb.
  { by destruct (main_pc s). }
  destruct (start_create_cases os b me args (qf s))
    as [[_ Hr]|[(_ & _ & _ & Hr)|(Hp & _ & Hf & me1 & q1 & Hr & Hc)]];
    cbv zeta in Hr; rewrite Hr in Hstep.
  - by destruct (main_pc s).
  - by destruct (main_pc s).
  - destruct (CreateThread_ os =? 0)%Z eqn:Hthr.
    { by destruct (main_pc s). }
    apply Z.eqb_neq in Hthr.
    split; [done|]. split; [done|]. split; [done|]. split; [done|].
    split; [done|]. eexists me1, q1, _. split; [done|]. split; [done|].
    destruct (main_pc s); [done|by injection Hstep|by injection Hstep].
Qed.

(** The two parts of a start taken one right after the other are
    QActive::start as a whole: the thread is created in front of the gate
    with the object that QActive::start hands back, the framework is as
    QActive::start leaves it, and no handle is left to store. *)
Lemma start_then_store (os : Win32) (a : AOPtr) (me : QActive)
    (args : StartArgs) (s s1 : Sys) :
  step (L_start os a me args) s = Some s1 ->
  exists me' q' s2,
    QActive_start os a me args (qf s) = Done (me', q') /\
    step (L_store a) s1 = Some s2 /\
    threads s2 = <[a := mkThread me' AtEnterStartup]> (threads s) /\
    qf s2 = q' /\ start_returned a s2.
Proof.
  intros Hstep.
  destruct (step_start_inv os a me args s s1 Hstep)
    as (_ & _ & Hthr & _ & _ & me1 & q1 & p & Hr & _ & ->).
  rewrite start_in_two_parts, Hr. cbn [mbind outcome_bind].
  destruct (start_store_cases os p me1 q1) as [[Hbad _]|[_ Hst]]; [done|].
  rewrite Hst. eexists _, _, _. split; [reflexivity|].
  simpl. rewrite !lookup_insert_eq. simpl. rewrite Hst.
  split; [reflexivity|]. simpl. split; [apply insert_insert_eq|].
  split; [done|]. unfold start_returned. simpl. apply lookup_delete_eq.
Qed.

(** A LIFO post by a thread is made within a dispatch, and it does to the
    inbox what QActive::postLIFO does. *)
Lemma postLIFO_move (a : AOPtr) (e : EvtPtr) (t : Thread) (s s' : Sys) :
  threads s !! a = Some t -> step (L_postLIFO a e) s = Some s' ->
  (exists e0, t_pc t = AtDispatch e0) /\
  exists act',
    (forall w, QActive_postLIFO (t_act t) e w = Done (act', hold e w)) /\
    items (m_eQueue act') = e :: items (m_eQueue (t_act t)) /\
    length (items (m_eQueue act')) <= capacity (m_eQueue act') /\
    s' = set_thread_of a (mkThread act' (t_pc t)) s.
Proof.
  intros Hta Hstep. simpl in Hstep. rewrite Hta in Hstep. simpl in Hstep.
  destruct (t_pc t) eqn:Hpc; try discriminate Hstep.
  destruct (0 <? nFree (m_eQueue (t_act t))) eqn:Hroom;
    [|discriminate Hstep].
  injection Hstep as <-. split; [by eexists|].
  exists (set_eQueue (push_front e (m_eQueue (t_act t))) (t_act t)).
  split_and!; try reflexivity.
  - intros w. unfold QActive_postLIFO. by rewrite Hroom.
  - apply Nat.ltb_lt in Hroom. unfold nFree in Hroom. simpl. lia.
Qed.

(** The moves that write members of the object [b] and leave its thread
    where it is: the rest of a start, a stop, a post, a LIFO post. *)
Lemma member_update_inv (l : Label) (b : AOPtr) (s s' : Sys) :
  member_update l = Some b -> step l s = Some s' ->
  exists u u',
    threads s !! b = Some u /\
    threads s' = <[b := u']> (threads s) /\
    t_pc u' = t_pc u /\
    m_prio (t_act u') = m_prio (t_act u) /\
    m_osObject (t_act u') = m_osObject (t_act u) /\
    capacity (m_eQueue (t_act u')) = capacity (m_eQueue (t_act u)) /\
    main_pc s' = main_pc s /\
    l_startupCritSect s' = l_startupCritSect s /\
    gate_releases s' = gate_releases s /\
    active_ (qf s') = active_ (qf s) /\
    history s' = history s /\
    (forall a, starting s !! a = None -> starting s' !! a = None) /\
    (forall a, a <> b -> starting s' !! a = starting s !! a).
Proof.
  intros Hl Hstep.
  destruct l as [|os a me args|a| |a|a e|a e|a]; try discriminate Hl;
    injection Hl as ->; simpl in Hstep.
  - destruct (starting s !! b) as [[os p]|] eqn:Hsb; [|discriminate Hstep].
    simpl in Hstep.
    destruct (threads s !! b) as [u|] eqn:Htb; [|discriminate Hstep].
    simpl in Hstep.
    destruct (start_store_cases os p (t_act u) (qf s)) as [[_ Hr]|[_ Hr]];
      rewrite Hr in Hstep; [discriminate Hstep|].
    injection Hstep as <-. eexists u, _. simpl. split_and!; try done.
    + by destruct (negb (p =? 0)%Z).
    + intros a Ha. destruct (decide (b = a)) as [->|Hne].
      * apply lookup_delete_eq.
      * by rewrite lookup_delete_ne.
    + intros a Hne. by rewrite lookup_delete_ne.
  - destruct (threads s !! b) as [u|] eqn:Htb; [|discriminate Hstep].
    injection Hstep as <-. eexists u, _. simpl. by split_and!.
  - destruct (threads s !! b) as [u|] eqn:Htb; [|discriminate Hstep].
    simpl in Hstep.
    destruct (0 <? nFree (m_eQueue (t_act u))); [|discriminate Hstep].
    injection Hstep as <-. eexists u, _. simpl. by split_and!.
  - destruct (threads s !! b) as [u|] eqn:Htb; [|discriminate Hstep].
    simpl in Hstep.
    destruct (t_pc u) eqn:Hpc; try discriminate Hstep.
    destruct (0 <? nFree (m_eQueue (t_act u))); [|discriminate Hstep].
    injection Hstep as <-. eexists u, _. simpl. by split_and!.
Qed.

(** One statement of a thread: it moves the thread, enters or leaves the
    startup critical section at the first two statements and nowhere else,
    and keeps the priority, the OS object and [m_thread] of the object. *)
Lemma thread_step_inv (b : AOPtr) (u : Thread) (s s' : Sys) :
  QF_thread_ b u s = Some s' ->
  exists u',
    threads s' = <[b := u']> (threads s) /\
    main_pc s' = main_pc s /\
    gate_releases s' = gate_releases s /\
    starting s' = starting s /\
    m_prio (t_act u') = m_prio (t_act u) /\
    m_osObject (t_act u') = m_osObject (t_act u) /\
    m_thread (t_act u') = m_thread (t_act u) /\
    ((t_pc u = AtEnterStartup /\ t_pc u' = AtLeaveStartup /\
      l_startupCritSect s = None /\
      l_startupCritSect s' = Some (OwnThread b)) \/
     (t_pc u = AtLeaveStartup /\ t_pc u' = AtGet /\
      l_startupCritSect s' = None) \/
     (t_pc u <> AtEnterStartup /\ t_pc u <> AtLeaveStartup /\
      t_pc u' <> AtEnterStartup /\ t_pc u' <> AtLeaveStartup /\
      l_startupCritSect s' = l_startupCritSect s)).
Proof.
  intros Hstep. unfold QF_thread_ in Hstep. cbv zeta in Hstep.
  destruct (t_pc u) eqn:Hpc; try discriminate Hstep.
  - destruct (l_startupCritSect s) eqn:Hg; [discriminate Hstep|].
    injection Hstep as <-. eexists. simpl. split_and!; try done. by left.
  - injection Hstep as <-. eexists. simpl. split_and!; try done.
    right. by left.
  - destruct (items (m_eQueue (t_act u))); [discriminate Hstep|].
    injection Hstep as <-. eexists. simpl. split_and!; try done.
    right. right. by split_and!.
  - injection Hstep as <-. eexists. simpl. split_and!; try done.
    right. right. by split_and!.
  - injection Hstep as <-. eexists. simpl. split_and!; try done.
    right. right. by split_and!.
  - injection Hstep as <-. eexists. simpl. split_and!; try done.
    right. right. split_and!; try done;
      by destruct (m_thread (t_act u) =? 0)%Z.
  - injection Hstep as <-. eexists. simpl. split_and!; try done.
    right. right. by split_and!.
  - injection Hstep as <-. eexists. simpl. split_and!; try done.
    right. right. by split_and!.
  - injection Hstep as <-. eexists. simpl. split_and!; try done.
    right. right. by split_and!.
Qed.

Lemma exec_app (sch1 sch2 : list Label) (s : Sys) :
  exec (sch1 ++ sch2) s = s1 ← exec sch1 s; exec sch2 s1.
Proof.
  revert s. induction sch1 as [|l sch1 IH]; intros s; simpl; [done|].
  destruct (step l s); [apply IH|done].
Qed.

End Moves.

(** ** The startup gate *)

Section Gate.
Context `{QFConfig}.

Lemma thread_pc_insert (a b : AOPtr) (t u : Thread) (m : gmap AOPtr Thread) :
  (forall c v, m !! c = Some v -> t_pc v = AtEnterStartup) ->
  t_pc u = AtEnterStartup ->
  <[b := u]> m !! a = Some t -> t_pc t = AtEnterStartup.
Proof.
  intros Hall Hu. destruct (decide (b = a)) as [->|Hne].
  - rewrite lookup_insert_eq. by intros [= <-].
  - rewrite lookup_insert_ne by done. apply Hall.
Qed.

(** A move that replaces the thread of [b] by one on the same side of the
    LeaveCriticalSection keeps the gate passed on among the threads. *)
Lemma update_keeps_gate (s s' : Sys) (b : AOPtr) (u u' : Thread) :
  threads s !! b = Some u ->
  threads s' = <[b := u']> (threads s) ->
  l_startupCritSect s' = l_startupCritSect s ->
  (t_pc u' = AtLeaveStartup <-> t_pc u = AtLeaveStartup) ->
  gate_passed_on s -> gate_passed_on s'.
Proof.
  intros Hub Hth Hgate Hpc (Hmain & Hown & Hat).
  unfold gate_passed_on. rewrite Hgate, Hth. split_and!.
  - done.
  - intros a Ha. destruct (Hown a Ha) as (t & Hta & Hpt).
    destruct (decide (b = a)) as [->|Hne].
    + rewrite lookup_insert_eq. exists u'. split; [done|]. apply Hpc.
      rewrite Hta in Hub. by injection Hub as <-.
    + rewrite lookup_insert_ne by done. by exists t.
  - intros a t. destruct (decide (b = a)) as [->|Hne].
    + rewrite lookup_insert_eq. intros [= <-] Hp. apply (Hat a u); [done|].
      by apply Hpc.
    + rewrite lookup_insert_ne by done. apply Hat.
Qed.

(** A new thread, in front of the gate, does not change who owns it. *)
Lemma new_thread_keeps_gate (s s' : Sys) (b : AOPtr) (u' : Thread) :
  threads s !! b = None ->
  threads s' = <[b := u']> (threads s) ->
  l_startupCritSect s' = l_startupCritSect s ->
  t_pc u' = AtEnterStartup ->
  gate_passed_on s -> gate_passed_on s'.
Proof.
  intros Hub Hth Hgate Hpc (Hmain & Hown & Hat).
  unfold gate_passed_on. rewrite Hgate, Hth. split_and!.
  - done.
  - intros a Ha. destruct (Hown a Ha) as (t & Hta & Hpt).
    exists t. rewrite lookup_insert_ne; [done|]. intros ->.
    by rewrite Hta in Hub.
  - intros a t. destruct (decide (b = a)) as [->|Hne].
    + rewrite lookup_insert_eq. intros [= <-] Hp. by rewrite Hpc in Hp.
    + rewrite lookup_insert_ne by done. apply Hat.
Qed.

(** One statement of a thread keeps the gate passed on. *)
Lemma thread_keeps_gate (s s' : Sys) (b : AOPtr) (u : Thread) :
  threads s !! b = Some u -> QF_thread_ b u s = Some s' ->
  gate_passed_on s -> gate_passed_on s'.
Proof.
  intros Hub Hstep Hinv.
  destruct (thread_step_inv b u s s' Hstep)
    as (u' & Hth & _ & _ & _ & _ & _ & _ & Hcase).
  destruct Hcase as [(Hpu & Hpu' & Hg & Hg')|[(Hpu & Hpu' & Hg')
                    |(Hn1 & Hn2 & Hn1' & Hn2' & Hg')]].
  - (* enters the critical section, which was free *)
    destruct Hinv as (Hmain & Hown & Hat).
    unfold gate_passed_on. rewrite Hg', Hth. split_and!.
    + done.
    + intros a [= <-]. exists u'. by rewrite lookup_insert_eq.
    + intros a t. destruct (decide (b = a)) as [->|Hne]; [done|].
      rewrite lookup_insert_ne by done. intros Hta Hp.
      specialize (Hat a t Hta Hp). by rewrite Hg in Hat.
  - (* leaves the critical section, which it owned *)
    destruct Hinv as (Hmain & Hown & Hat).
    pose proof (Hat b u Hub Hpu) as Hb.
    unfold gate_passed_on. rewrite Hg', Hth. split_and!.
    + done.
    + done.
    + intros a t. destruct (decide (b = a)) as [->|Hne].
      * rewrite lookup_insert_eq. intros [= <-] Hp. by rewrite Hpu' in Hp.
      * rewrite lookup_insert_ne by done. intros Hta Hp.
        specialize (Hat a t Hta Hp). rewrite Hb in Hat.
        by injection Hat as ->.
  - by apply (update_keeps_gate s s' b u u').
Qed.

(** Every move of the system keeps the gate invariant. *)
Lemma step_gate_inv (l : Label) (s s' : Sys) :
  gate_inv s -> step l s = Some s' -> gate_inv s'.
Proof.
  unfold gate_inv. intros Hinv Hstep.
  destruct (member_update l) as [b|] eqn:Hl.
  { (* the rest of a start, a stop, a post, a LIFO post *)
    destruct (member_update_inv l b s s' Hl Hstep)
      as (u & u' & Hub & Hth & Hpc & _ & _ & _ & Hm & Hg & Hr & _ & Hh & _).
    rewrite Hm. destruct (main_pc s).
    - destruct Hinv as (Hnone & _). by rewrite Hnone, lookup_empty in Hub.
    - destruct Hinv as (Hgate & Hhist & Hrel & Hall).
      rewrite Hg, Hr, Hh, Hth. split_and!; try done.
      intros a t. apply thread_pc_insert; [done|]. rewrite Hpc.
      by apply (Hall b).
    - destruct Hinv as [Hrel Hpass]. rewrite Hr. split; [done|].
      apply (update_keeps_gate s s' b u u'); try done.
      by rewrite Hpc. }
  destruct l as [|os a me args|a| |a|a e|a e|a]; try discriminate Hl.
  - (* QF::init *)
    simpl in Hstep. destruct (main_pc s) eqn:Hpc; try discriminate Hstep.
    injection Hstep as <-. simpl. destruct Hinv as (Hth & Hh & Hrel).
    split_and!; try done. intros a t. by rewrite Hth, lookup_empty.
  - (* the first part of a start *)
    destruct (step_start_inv os a me args s s' Hstep)
      as (Hpc & Hta & _ & _ & _ & me1 & q1 & p & _ & _ & ->).
    simpl. destruct (main_pc s) eqn:Hm; [done| |].
    + destruct Hinv as (Hgate & Hh & Hrel & Hall). split_and!; try done.
      intros b t. by apply thread_pc_insert.
    + destruct Hinv as [Hrel Hpass]. split; [done|].
      by eapply (new_thread_keeps_gate s _ a).
  - (* QF::run *)
    simpl in Hstep. destruct (main_pc s) eqn:Hpc; try discriminate Hstep.
    injection Hstep as <-. simpl. destruct Hinv as (_ & _ & Hrel & Hall).
    split; [by rewrite Hrel|]. unfold gate_passed_on. simpl.
    split_and!; try done.
    intros a t Hta Hp. by rewrite (Hall a t Hta) in Hp.
  - (* a statement of QF::thread_ *)
    simpl in Hstep.
    destruct (threads s !! a) as [t|] eqn:Hta; try discriminate Hstep.
    simpl in Hstep.
    destruct (main_pc s) eqn:Hpc.
    + destruct Hinv as (Hth & _). by rewrite Hth, lookup_empty in Hta.
    + destruct Hinv as (Hgate & Hh & Hrel & Hall).
      unfold QF_thread_ in Hstep. rewrite (Hall a t Hta), Hgate in Hstep.
      discriminate Hstep.
    + destruct Hinv as [Hrel Hpass].
      pose proof (thread_keeps_gate s s' a t Hta Hstep Hpass) as Hpass'.
      destruct (thread_step_inv a t s s' Hstep)
        as (u' & _ & Hm & Hr & _).
      by rewrite Hm, Hpc, Hr.
Qed.

Lemma exec_gate_inv (sch : list Label) (s s' : Sys) :
  gate_inv s -> exec sch s = Some s' -> gate_inv s'.
Proof.
  revert s. induction sch as [|l sch IH]; intros s Hinv Hexec; simpl in Hexec.
  - by injection Hexec as <-.
  - destruct (step l s) as [s1|] eqn:Hstep; [|discriminate Hexec].
    eapply IH; [|exact Hexec]. by eapply step_gate_inv.
Qed.

Lemma gate_inv_boot : gate_inv sys_boot.
Proof. by unfold gate_inv. Qed.

(** C3: in every state the system reaches, as long as QF::run has not left
    the startup critical section, the main thread owns it from QF::init on,
    every thread of an active object is still in front of it and cannot
    move, and no event has been dispatched.  The LeaveCriticalSection of
    QF::run is the move that frees the critical section; it is taken once,
    and never again: from then on the main thread never owns the critical
    section, which is free, so that a thread in front of it can enter, or
    owned by the one thread that is about to leave it, and can. *)
Theorem startup_gate (sch : list Label) (s : Sys) :
  exec sch sys_boot = Some s -> gate_behaviour s.
Proof.
  intros Hexec.
  assert (Hinv : gate_inv s).
  { eapply exec_gate_inv; [|exact Hexec]. apply gate_inv_boot. }
  unfold gate_inv in Hinv. unfold gate_behaviour.
  destruct (main_pc s) eqn:Hpc.
  - destruct Hinv as (Hth & Hh & Hrel). split_and!; try done.
    intros _. split; [done|]. intros a t. by rewrite Hth, lookup_empty.
  - destruct Hinv as (Hgate & Hh & Hrel & Hall). split_and!; try done.
    + intros _. split; [done|]. exists (QF_run s). simpl. by rewrite Hpc.
    + intros _. split; [done|]. intros a t Hta. split; [by eapply Hall|].
      simpl. rewrite Hta. simpl. unfold QF_thread_.
      by rewrite (Hall a t Hta), Hgate.
  - destruct Hinv as (Hrel & Hmain & Hown & Hat). split_and!; try done.
    intros _. split_and!; try done.
    + simpl. by rewrite Hpc.
    + simpl. by rewrite Hpc.
    + intros a Ha. destruct (Hown a Ha) as (t & Hta & Hp).
      exists t. split; [done|]. split; [done|].
      eexists. simpl. rewrite Hta. simpl. unfold QF_thread_. rewrite Hp.
      split; [reflexivity|done].
    + intros Hfree a t Hta Hp.
      eexists. simpl. rewrite Hta. simpl. unfold QF_thread_.
      rewrite Hp, Hfree. split; [reflexivity|done].
Qed.

End Gate.

Lemma startup_gate_witness :
  (exists s,
     @exec win32_config sch_startup sys_boot = Some s /\
     main_pc s = Initialized /\ is_Some (threads s !! 6) /\
     @gate_behaviour win32_config s) /\
  (@exec win32_config sch_released sys_boot = Some sys_released /\
   main_pc sys_released = InRun /\
   l_startupCritSect sys_released = Some (OwnThread 6) /\
   @gate_behaviour win32_config sys_released).
Proof.
  split.
  - eexists. split; [reflexivity|]. split; [reflexivity|].
    split; [by eexists|].
    apply (@startup_gate win32_config sch_startup). reflexivity.
  - assert (Hexec : @exec win32_config sch_released sys_boot
                    = Some sys_released).
    { vm_compute. reflexivity. }
    split; [exact Hexec|]. split; [vm_compute; reflexivity|].
    split; [vm_compute; reflexivity|].
    exact (@startup_gate win32_config sch_released sys_released Hexec).
Defined.

(** Once QF::run has opened the gate the thread passes it and dispatches. *)
Example dispatch_after_run :
  history <$> @exec win32_config
                (sch_startup ++
                 [L_run; L_thread 6; L_thread 6; L_thread 6; L_thread 6])
                sys_boot
  = Some [Dispatched 6 9].
Proof. vm_compute. reflexivity. Qed.

(** Before QF::run the thread has no step. *)
Example thread_blocked_before_run :
  @exec win32_config (sch_startup ++ [L_thread 6]) sys_boot = None.
Proof. vm_compute. reflexivity. Qed.

(** While one thread is inside the startup critical section the next one
    waits in front of it. *)
Example one_thread_at_a_time :
  @exec win32_config
    [L_init; L_start os0 6 ao_fresh args0;
     L_start os0 7 ao_fresh (mkStartArgs 2%Z 4096%Z 8%Z 0%Z 0%Z 0);
     L_run; L_thread 6; L_thread 7] sys_boot = None.
Proof. vm_compute. reflexivity. Qed.

(** ** The registry *)

Section Registry.
Context `{QFConfig}.

(** A move that replaces the thread of [b] by one of the same priority,
    registered as before, and leaves the registry alone. *)
Lemma update_keeps_registry (s s' : Sys) (b : AOPtr) (u u' : Thread) :
  threads s !! b = Some u ->
  threads s' = <[b := u']> (threads s) ->
  main_pc s' = main_pc s ->
  active_ (qf s') = active_ (qf s) ->
  m_prio (t_act u') = m_prio (t_act u) ->
  registered_pc (t_pc u') = registered_pc (t_pc u) ->
  registry_inv s -> registry_inv s'.
Proof.
  intros Hub Hth Hpc Hact Hprio Hreg (Hboot & Hin & Hout).
  unfold registry_inv. rewrite Hpc, Hact, Hth. split_and!.
  - intros Hb. specialize (Hboot Hb). by rewrite Hboot, lookup_empty in Hub.
  - intros a t. destruct (decide (b = a)) as [->|Hne].
    + rewrite lookup_insert_eq. intros [= <-] Hr.
      rewrite Hprio. apply Hin; [done|]. by rewrite <- Hreg.
    + rewrite lookup_insert_ne by done. apply Hin.
  - intros p a Hpa. destruct (Hout p a Hpa) as (Hrange & t & Hta & Hp & Hr).
    split; [done|]. destruct (decide (b = a)) as [->|Hne].
    + rewrite lookup_insert_eq. exists u'. rewrite Hta in Hub.
      injection Hub as <-. split; [done|]. by rewrite Hprio, Hreg.
    + rewrite lookup_insert_ne by done. by exists t.
Qed.

(** Every move keeps the registry and the threads in agreement. *)
Lemma step_registry_inv (l : Label) (s s' : Sys) :
  registry_inv s -> step l s = Some s' -> registry_inv s'.
Proof.
  intros Hinv Hstep.
  destruct (member_update l) as [b|] eqn:Hl.
  { destruct (member_update_inv l b s s' Hl Hstep)
      as (u & u' & Hub & Hth & Hpc & Hprio & _ & _ & Hm & _ & _ & Hact & _).
    apply (update_keeps_registry s s' b u u'); try done. by rewrite Hpc. }
  destruct l as [|os b me args|b| |b|b e|b e|b]; try discriminate Hl.
  - (* QF::init *)
    simpl in Hstep. destruct (main_pc s) eqn:Hpc; try discriminate Hstep.
    injection Hstep as <-. destruct Hinv as (Hboot & _ & _).
    unfold registry_inv. simpl. rewrite (Hboot Hpc). split_and!.
    + done.
    + intros a t. by rewrite lookup_empty.
    + intros p a. by rewrite lookup_empty.
  - (* the first part of a start *)
    destruct Hinv as (Hboot & Hin & Hout).
    destruct (step_start_inv os b me args s s' Hstep)
      as (Hpc & Htb & _ & Hrange & Hfree & me1 & q1 & p & _ & Hc & ->).
    destruct Hc as (_ & Hprio & _ & _ & Hact & _).
    unfold slot_free in Hfree. unfold registry_inv. simpl.
    rewrite Hact. split_and!.
    + done.
    + intros a t. destruct (decide (b = a)) as [->|Hne].
      * rewrite lookup_insert_eq. intros [= <-] _. simpl.
        by rewrite Hprio, lookup_insert_eq.
      * rewrite lookup_insert_ne by done. intros Hta Hr.
        specialize (Hin a t Hta Hr).
        rewrite lookup_insert_ne; [done|]. intros Heq.
        by rewrite Heq, Hin in Hfree.
    + intros p' a. destruct (decide (a_prio args = p')) as [<-|Hne].
      * rewrite lookup_insert_eq. intros [= <-]. split; [done|].
        eexists. rewrite lookup_insert_eq. by split_and!.
      * rewrite lookup_insert_ne by done. intros Hpa.
        destruct (Hout p' a Hpa) as (Hr & t & Hta & Hp & Hreg).
        split; [done|]. exists t. rewrite lookup_insert_ne; [done|].
        intros ->. by rewrite Htb in Hta.
  - (* QF::run *)
    simpl in Hstep. destruct (main_pc s) eqn:Hpc; try discriminate Hstep.
    injection Hstep as <-. destruct Hinv as (Hboot & Hin & Hout).
    unfold registry_inv. simpl. by split_and!.
  - (* a statement of QF::thread_ *)
    simpl in Hstep.
    destruct (threads s !! b) as [u|] eqn:Htb; try discriminate Hstep.
    simpl in Hstep. unfold QF_thread_ in Hstep. cbv zeta in Hstep.
    destruct (t_pc u) eqn:Hpc; try discriminate Hstep.
    1-7, 9: case_step Hstep; injection Hstep as <-;
      eapply (update_keeps_registry s _ b u); try done;
      simpl; by rewrite Hpc.
    (* QF::remove_ *)
    injection Hstep as <-. destruct Hinv as (Hboot & Hin & Hout).
    assert (Hb : active_ (qf s) !! m_prio (t_act u) = Some b).
    { apply Hin; [done|]. by rewrite Hpc. }
    unfold registry_inv. simpl. split_and!.
    + intros Hm. specialize (Hboot Hm). by rewrite Hboot, lookup_empty in Htb.
    + intros a t. destruct (decide (b = a)) as [->|Hne].
      * rewrite lookup_insert_eq. by intros [= <-].
      * rewrite lookup_insert_ne by done. intros Hta Hr.
        specialize (Hin a t Hta Hr).
        rewrite lookup_delete_ne; [done|]. intros Heq.
        rewrite Heq, Hin in Hb. by injection Hb.
    + intros p a.
      destruct (decide (m_prio (t_act u) = p)) as [<-|Hne];
        [by rewrite lookup_delete_eq|].
      rewrite lookup_delete_ne by done. intros Hpa.
      destruct (Hout p a Hpa) as (Hr & t & Hta & Hp & Hreg).
      split; [done|]. exists t. rewrite lookup_insert_ne; [done|].
      intros ->. rewrite Htb in Hta. injection Hta as <-. done.
Qed.

Lemma exec_registry_inv (sch : list Label) (s s' : Sys) :
  registry_inv s -> exec sch s = Some s' -> registry_inv s'.
Proof.
  revert s. induction sch as [|l sch IH]; intros s Hinv Hexec; simpl in Hexec.
  - by injection Hexec as <-.
  - destruct (step l s) as [s1|] eqn:Hstep; [|discriminate Hexec].
    eapply IH; [|exact Hexec]. by eapply step_registry_inv.
Qed.

Lemma registry_inv_boot : registry_inv sys_boot.
Proof.
  unfold registry_inv. simpl. split_and!; [done| |].
  - intros a t. by rewrite lookup_empty.
  - intros p a. by rewrite lookup_empty.
Qed.



End Registry.

(** ** Stopping an active object *)

Section Stop.
Context `{QFConfig}.

Lemma own_snoc (a : AOPtr) (h : list Obs) (o : Obs) :
  own a (h ++ [o]) = own a h ++ (if bool_decide (obs_of o = a) then [o] else []).
Proof.
  induction h as [|o' h IH]; simpl.
  - by case_bool_decide.
  - rewrite IH. by destruct (bool_decide (obs_of o' = a)).
Qed.

Lemma own_snoc_other (a b : AOPtr) (h : list Obs) (o : Obs) :
  obs_of o = b -> a <> b -> own a (h ++ [o]) = own a h.
Proof.
  intros Ho Hne. rewrite own_snoc, bool_decide_eq_false_2 by congruence.
  apply app_nil_r.
Qed.


(** A statement of another thread leaves the thread of [a] and what it has
    done as they are. *)
Lemma other_thread_step (a b : AOPtr) (u : Thread) (s s' : Sys) :
  a <> b -> QF_thread_ b u s = Some s' ->
  threads s' !! a = threads s !! a /\ own a (history s') = own a (history s) /\
  starting s' = starting s.
Proof.
  intros Hne Hstep. unfold QF_thread_ in Hstep.
  assert (Hne' : b <> a) by done.
  destruct (t_pc u); try discriminate Hstep;
    case_step Hstep; injection Hstep as <-; simpl;
    rewrite lookup_insert_ne by done;
    (split; [done|]); (split; [|done]); try done;
    by apply own_snoc_other with b.
Qed.







(** The test of [m_thread] is reached from the collection of an event and
    from nowhere else. *)
Lemma while_follows_gc (a : AOPtr) (t t' : Thread) (s s' : Sys) :
  QF_thread_ a t s = Some s' -> threads s' !! a = Some t' ->
  t_pc t' = AtWhile -> exists e, t_pc t = AtGc e.
Proof.
  intros Hstep Hta Hpc. unfold QF_thread_ in Hstep.
  destruct (t_pc t) eqn:Ht; try discriminate Hstep;
    case_step Hstep; injection Hstep as <-; simpl in Hta;
    rewrite lookup_insert_eq in Hta; injection Hta as <-;
    try discriminate Hpc.
  by eexists.
Qed.

(** The removal frees the registry slot of the priority. *)
Lemma remove_frees_slot (a : AOPtr) (t : Thread) (s s' : Sys) :
  threads s !! a = Some t -> t_pc t = AtRemove ->
  step (L_thread a) s = Some s' ->
  active_ (qf s') !! m_prio (t_act t) = None /\
  history s' = history s ++ [Removed a].
Proof.
  intros Hta Hpc Hstep. simpl in Hstep. rewrite Hta in Hstep.
  simpl in Hstep. unfold QF_thread_ in Hstep. rewrite Hpc in Hstep.
  injection Hstep as <-. simpl. split; [|done]. apply lookup_delete_eq.
Qed.


End Stop.


(** The same run, spelled out: the stop comes before the event is even
    taken, other events keep arriving, and still the event is dispatched
    and collected before the thread leaves, which it then does. *)
Example stop_before_get :
  history sys_stopped
  = [Dispatched 6 9; Collected 6 9; UnsubscribedAll 6; Removed 6;
     HandleClosed 6 500] /\
  active_ (qf sys_stopped) = ∅ /\
  t_pc <$> threads sys_stopped !! 6 = Some Returned.
Proof. split_and!; vm_compute; reflexivity. Qed.

(** A thread that is stopped while it waits on an empty inbox stays there
    until an event arrives. *)
Example stop_while_waiting :
  @exec win32_config
    [L_init; L_start os0 6 ao_fresh args0; L_store 6; L_run; L_thread 6;
     L_thread 6; L_stop 6; L_thread 6] sys_boot = None.
Proof. vm_compute. reflexivity. Qed.


(** * Properties of the further code *)

(** ** Sequences of deferrals and recalls *)

Lemma set_refCtr_same (e : EvtPtr) (w : World) (p : EvtPtr) :
  heap (set_refCtr e (refCtr_ (heap w e)) w) p = heap w p.
Proof.
  unfold set_refCtr. simpl. destruct (decide (p = e)) as [->|Hne].
  - rewrite heap_set_eq. by destruct (heap w e).
  - by rewrite heap_set_ne.
Qed.

(** Taking back the reference that a hand-off gave restores the event. *)
Lemma released_hold (e p : EvtPtr) (w : World) :
  pooled w e = true -> heap (released e (hold e w)) p = heap w p.
Proof.
  intros Hp. unfold released, hold. rewrite Hp. simpl.
  destruct (decide (p = e)) as [->|Hne].
  - rewrite !heap_set_eq. simpl. by destruct (heap w e).
  - by rewrite !heap_set_ne.
Qed.

Lemma released_critNest (e : EvtPtr) (w : World) :
  critNest (released e w) = critNest w.
Proof. reflexivity. Qed.

(** A recall of a live event into an inbox with a free slot goes through
    and restores every event. *)
Lemma recall_live (me : QActive) (e : EvtPtr) (rest : list EvtPtr)
    (cap : nat) (w : World) :
  (pooled w e = true -> 1 <= refCtr_ (heap w e)) ->
  1 <= nFree (m_eQueue me) ->
  exists w',
    QActive_recall me (mkQEQueue (e :: rest) cap) w
    = Done (true, set_eQueue (push_front e (m_eQueue me)) me,
            mkQEQueue rest cap, w') /\
    (forall p, heap w' p = heap w p) /\
    critNest w' = critNest w.
Proof.
  intros Hlive Hroom. rewrite recall_cons. cbv zeta.
  apply Nat.ltb_lt in Hroom. rewrite Hroom.
  destruct (pooled w e) eqn:Hp.
  - assert (Htwo : (1 <? refCtr_ (heap (hold e w) e)) = true).
    { apply Nat.ltb_lt. rewrite hold_refCtr, Hp.
      rewrite bool_decide_eq_true_2 by done. simpl.
      specialize (Hlive eq_refl). lia. }
    rewrite Htwo. eexists. split; [reflexivity|]. split.
    + intros p. by apply released_hold.
    + by rewrite released_critNest, hold_critNest.
  - by eexists.
Qed.

(** X1: a recall whose head event, if pooled, is referenced at least once
    and for which the inbox has a free slot never dies in an assertion; it
    answers [true] exactly when the side queue was not empty, and it leaves
    every event as it found it: the reference the inbox takes is the one
    the side queue gives up.  The critical section is left as often as it
    was entered. *)
Theorem recall_keeps_counters (me : QActive) (eq : QEQueue) (w : World) :
  (forall e, head (items eq) = Some e ->
             pooled w e = true -> 1 <= refCtr_ (heap w e)) ->
  (items eq <> [] -> 1 <= nFree (m_eQueue me)) ->
  exists b me' eq' w',
    QActive_recall me eq w = Done (b, me', eq', w') /\
    (b = true <-> items eq <> []) /\
    (forall p, heap w' p = heap w p) /\
    critNest w' = critNest w.
Proof.
  intros Hlive Hroom. destruct eq as [[|e rest] cap].
  - exists false, me, (mkQEQueue [] cap), w. split; [reflexivity|].
    split; [|done]. split; [done|]. by intros [].
  - destruct (recall_live me e rest cap w) as (w' & Hr & Hheap & Hnest).
    { by apply Hlive. }
    { by apply Hroom. }
    eexists true, _, _, w'. split; [exact Hr|]. by split_and!.
Qed.

Lemma recall_keeps_counters_witness :
  (forall e, head (items (mkQEQueue [7; 9] 4)) = Some e ->
             pooled world0 e = true -> 1 <= refCtr_ (heap world0 e)) /\
  (items (mkQEQueue [7; 9] 4) <> [] -> 1 <= nFree (m_eQueue ao0)) /\
  exists b me' eq' w',
    QActive_recall ao0 (mkQEQueue [7; 9] 4) world0 = Done (b, me', eq', w') /\
    (b = true <-> items (mkQEQueue [7; 9] 4) <> []) /\
    (forall p, heap w' p = heap world0 p) /\
    critNest w' = critNest world0.
Proof.
  assert (Hlive : forall e, head (items (mkQEQueue [7; 9] 4)) = Some e ->
                    pooled world0 e = true -> 1 <= refCtr_ (heap world0 e)).
  { intros e _ _. simpl. lia. }
  assert (Hroom : items (mkQEQueue [7; 9] 4) <> [] ->
                  1 <= nFree (m_eQueue ao0)).
  { intros _. unfold nFree. simpl. lia. }
  split; [exact Hlive|]. split; [exact Hroom|].
  exact (recall_keeps_counters ao0 (mkQEQueue [7; 9] 4) world0 Hlive Hroom).
Defined.

(** X2: a recall that returns loses no event and invents none.  The events
    in front of the inbox, read backwards, followed by the side queue are
    the same sequence before and after: the head of the side queue has
    become the head of the inbox, or nothing has moved.  The answer is
    [true] exactly when the side queue was not empty; the side queue is
    then shorter by one event and the inbox has one free slot less, and
    otherwise both are as they were.  The bounds of both queues and the
    other members of the active object stay, and an inbox within its bound
    remains within it. *)
Theorem recall_conserves_events (me me' : QActive) (eq eq' : QEQueue)
    (w w' : World) (b : bool) :
  QActive_recall me eq w = Done (b, me', eq', w') ->
  rev (items (m_eQueue me')) ++ items eq'
  = rev (items (m_eQueue me)) ++ items eq /\
  (b = true <-> items eq <> []) /\
  length (items eq') + (if b then 1 else 0) = length (items eq) /\
  length (items (m_eQueue me'))
  = length (items (m_eQueue me)) + (if b then 1 else 0) /\
  nFree (m_eQueue me') + (if b then 1 else 0) = nFree (m_eQueue me) /\
  (length (items (m_eQueue me)) <= capacity (m_eQueue me) ->
   length (items (m_eQueue me')) <= capacity (m_eQueue me')) /\
  capacity eq' = capacity eq /\
  capacity (m_eQueue me') = capacity (m_eQueue me) /\
  m_prio me' = m_prio me /\ m_osObject me' = m_osObject me /\
  m_thread me' = m_thread me.
Proof.
  destruct eq as [[|e rest] cap].
  - intros [= <- <- <- <-]. split_and!; try done; try lia.
  - rewrite recall_cons. cbv zeta.
    destruct (0 <? nFree (m_eQueue me)) eqn:Hroom; [|discriminate].
    apply Nat.ltb_lt in Hroom. unfold nFree in Hroom.
    destruct (pooled w e);
      [destruct (1 <? refCtr_ (heap (hold e w) e)); [|discriminate]|];
      intros [= <- <- <- <-]; unfold nFree; simpl; rewrite <- app_assoc;
      split_and!; try done; lia.
Qed.

Lemma recall_conserves_events_witness :
  exists me' eq' w',
    QActive_recall ao0 (mkQEQueue [7; 9] 4) world0 = Done (true, me', eq', w') /\
    rev (items (m_eQueue me')) ++ items eq'
    = rev (items (m_eQueue ao0)) ++ items (mkQEQueue [7; 9] 4) /\
    (true = true <-> items (mkQEQueue [7; 9] 4) <> []) /\
    length (items eq') + 1 = length (items (mkQEQueue [7; 9] 4)) /\
    length (items (m_eQueue me')) = length (items (m_eQueue ao0)) + 1 /\
    nFree (m_eQueue me') + 1 = nFree (m_eQueue ao0) /\
    (length (items (m_eQueue ao0)) <= capacity (m_eQueue ao0) ->
     length (items (m_eQueue me')) <= capacity (m_eQueue me')) /\
    capacity eq' = capacity (mkQEQueue [7; 9] 4) /\
    capacity (m_eQueue me') = capacity (m_eQueue ao0) /\
    m_prio me' = m_prio ao0 /\ m_osObject me' = m_osObject ao0 /\
    m_thread me' = m_thread ao0.
Proof.
  eexists _, _, _. split; [reflexivity|].
  eapply (recall_conserves_events ao0 _ (mkQEQueue [7; 9] 4) _ world0 _ true).
  reflexivity.
Defined.

(** A recall into a full inbox moves nothing: it dies in the LIFO post. *)
Example recall_into_full_inbox :
  aborts (QActive_recall ao_full (mkQEQueue [7; 9] 4) world0).
Proof. by eexists _, _. Qed.

Lemma live_in_ext (w w' : World) (l : list EvtPtr) :
  (forall p, heap w' p = heap w p) -> live_in w l -> live_in w' l.
Proof.
  intros Hheap Hl. unfold live_in, pooled in *.
  eapply Forall_impl; [exact Hl|]. intros e. by rewrite Hheap.
Qed.

(** Recalling until the side queue is empty, with fuel to spare. *)
Lemma recall_all_live (rest : list EvtPtr) (cap : nat) :
  forall (fuel : nat) (me : QActive) (w : World),
    live_in w rest -> length rest < fuel ->
    length rest <= nFree (m_eQueue me) ->
    exists w',
      recall_all fuel me (mkQEQueue rest cap) w
      = Some (Done (length rest,
                    set_eQueue (mkQEQueue (rev rest ++ items (m_eQueue me))
                                          (capacity (m_eQueue me))) me,
                    mkQEQueue [] cap, w')) /\
      (forall p, heap w' p = heap w p) /\
      critNest w' = critNest w.
Proof.
  induction rest as [|e rest IH]; intros fuel me w Hlive Hfuel Hroom.
  - destruct fuel as [|fuel]; [simpl in Hfuel; lia|].
    exists w. split; [|done]. simpl. by destruct me as [[? ?] ? ? ?].
  - destruct fuel as [|fuel]; [simpl in Hfuel; lia|].
    apply Forall_cons in Hlive as [He Hrest].
    destruct (recall_live me e rest cap w He) as (w1 & Hr & Hheap1 & Hnest1).
    { simpl in Hroom. lia. }
    destruct (IH fuel (set_eQueue (push_front e (m_eQueue me)) me) w1)
      as (w2 & Hall & Hheap2 & Hnest2).
    { by apply (live_in_ext w). }
    { simpl in Hfuel. lia. }
    { unfold nFree in *. simpl in *. lia. }
    exists w2. cbn [recall_all]. rewrite Hr, Hall. split.
    + simpl. by rewrite <- app_assoc.
    + split; [|congruence]. intros p. by rewrite Hheap2.
Qed.

(** X3: when every pooled event in the side queue is referenced at least
    once and the inbox has a free slot for each deferred event, calling
    QActive::recall until it answers [false] ends after one call more than
    there are deferred events, with no assertion; the side queue is then
    empty, the deferred events stand in front of the inbox in the reverse
    of the order in which they were deferred (the one deferred last is
    dispatched first), the inbox keeps its bound, and every event is as it
    was. *)
Theorem recall_all_reverses (fuel : nat) (me : QActive) (eq : QEQueue)
    (w : World) :
  live_in w (items eq) -> length (items eq) < fuel ->
  length (items eq) <= nFree (m_eQueue me) ->
  exists me' eq' w',
    recall_all fuel me eq w
    = Some (Done (length (items eq), me', eq', w')) /\
    items eq' = [] /\
    items (m_eQueue me') = rev (items eq) ++ items (m_eQueue me) /\
    capacity (m_eQueue me') = capacity (m_eQueue me) /\
    (forall p, heap w' p = heap w p).
Proof.
  intros Hlive Hfuel Hroom. destruct eq as [rest cap].
  destruct (recall_all_live rest cap fuel me w Hlive Hfuel Hroom)
    as (w' & Hall & Hheap & _).
  eexists _, _, w'. split; [exact Hall|]. by split_and!.
Qed.

Lemma recall_all_reverses_witness :
  live_in world0 (items (mkQEQueue [7; 9; 7] 4)) /\
  length (items (mkQEQueue [7; 9; 7] 4)) < 5 /\
  length (items (mkQEQueue [7; 9; 7] 4)) <= nFree (m_eQueue ao0) /\
  exists me' eq' w',
    recall_all 5 ao0 (mkQEQueue [7; 9; 7] 4) world0
    = Some (Done (length (items (mkQEQueue [7; 9; 7] 4)), me', eq', w')) /\
    items eq' = [] /\
    items (m_eQueue me')
    = rev (items (mkQEQueue [7; 9; 7] 4)) ++ items (m_eQueue ao0) /\
    capacity (m_eQueue me') = capacity (m_eQueue ao0) /\
    (forall p, heap w' p = heap world0 p).
Proof.
  assert (Hlive : live_in world0 (items (mkQEQueue [7; 9; 7] 4))).
  { repeat constructor. }
  assert (Hfuel : length (items (mkQEQueue [7; 9; 7] 4)) < 5).
  { simpl. lia. }
  assert (Hroom : length (items (mkQEQueue [7; 9; 7] 4))
                  <= nFree (m_eQueue ao0)).
  { unfold nFree. simpl. lia. }
  split; [exact Hlive|]. split; [exact Hfuel|]. split; [exact Hroom|].
  exact (recall_all_reverses 5 ao0 (mkQEQueue [7; 9; 7] 4) world0
           Hlive Hfuel Hroom).
Defined.

(** With room for two of three deferred events the third recall dies in
    the LIFO post. *)
Example recall_all_overflows :
  recall_all 5 (mkQActive (mkQEQueue [3] 3) 1 0%Z 0%Z)
             (mkQEQueue [7; 9; 7] 4) world0
  = Some (Assertion "qf_actq" 110).
Proof. reflexivity. Qed.

Lemma nFree_snoc (q : QEQueue) (e : EvtPtr) :
  nFree (mkQEQueue (items q ++ [e]) (capacity q)) = nFree q - 1.
Proof. unfold nFree. simpl. rewrite length_app. simpl. lia. Qed.

Lemma occurrences_elem (p : EvtPtr) (l : list EvtPtr) :
  p ∈ l -> 1 <= occurrences p l.
Proof.
  induction l as [|e l IH]; [by intros ?%elem_of_nil|].
  intros [->|Hin]%elem_of_cons; simpl.
  - rewrite bool_decide_eq_true_2 by done. lia.
  - specialize (IH Hin). lia.
Qed.

(** Deferring a sequence of events: the first [nFree - 1] are taken, in
    order, and counted; the others are turned down. *)
Lemma defer_all_spec (l : list EvtPtr) :
  forall (eq : QEQueue) (w : World),
    exists w',
      defer_all l eq w
      = Done (replicate (min (length l) (nFree eq - 1)) true ++
              replicate (length l - (nFree eq - 1)) false,
              mkQEQueue (items eq ++ take (nFree eq - 1) l) (capacity eq),
              w') /\
      (forall p, refCtr_ (heap w' p)
                 = refCtr_ (heap w p) +
                   (if pooled w p
                    then occurrences p (take (nFree eq - 1) l) else 0)) /\
      (forall p, pooled w' p = pooled w p) /\
      critNest w' = critNest w.
Proof.
  induction l as [|e l IH]; intros eq w.
  - exists w. simpl. rewrite take_nil, app_nil_r. split.
    + by destruct eq.
    + split; [|done]. intros p. destruct (pooled w p); simpl; lia.
  - cbn [defer_all]. unfold QActive_defer, QEQueue_post.
    destruct (1 <? nFree eq) eqn:Hfree.
    + apply Nat.ltb_lt in Hfree.
      destruct (IH (mkQEQueue (items eq ++ [e]) (capacity eq)) (hold e w))
        as (w' & Hall & Hctr & Hpool & Hnest).
      exists w'. cbn [mbind outcome_bind]. rewrite Hall.
      rewrite nFree_snoc in *. cbn [mbind outcome_bind capacity items] in *.
      destruct (nFree eq) as [|[|n]]; [lia|lia|].
      replace (S (S n) - 1 - 1) with n in * by lia.
      replace (S (S n) - 1) with (S n) in * by lia.
      cbn [take length]. split.
      * cbn [Nat.min Nat.sub replicate app]. by rewrite <- app_assoc.
      * split_and!.
        -- intros p. rewrite Hctr, hold_refCtr, hold_pooled.
           cbn [occurrences]. destruct (pooled w p) eqn:Hp.
           ++ case_bool_decide as Hpe.
              ** subst p. rewrite Hp. simpl.
                 rewrite bool_decide_eq_true_2 by done. lia.
              ** rewrite andb_false_r.
                 rewrite bool_decide_eq_false_2 by congruence. lia.
           ++ case_bool_decide as Hpe.
              ** subst p. rewrite Hp. simpl. lia.
              ** rewrite andb_false_r. lia.
        -- intros p. by rewrite Hpool, hold_pooled.
        -- by rewrite Hnest, hold_critNest.
    + apply Nat.ltb_ge in Hfree.
      destruct (IH eq w) as (w' & Hall & Hctr & Hpool & Hnest).
      exists w'. cbn [mbind outcome_bind]. rewrite Hall.
      cbn [mbind outcome_bind].
      replace (nFree eq - 1) with 0 in * by lia.
      rewrite Nat.min_0_r in *. rewrite Nat.sub_0_r in *.
      rewrite take_0 in *. cbn [length replicate app]. by split_and!.
Qed.

(** X4: deferring any sequence of events to a side queue never dies in an
    assertion.  The events are taken, and appended in their order, as long
    as more than one slot is free, and turned down from then on: the
    answers are [true] for the first [nFree - 1] events and [false] for the
    rest, and a side queue that had a free slot still has one afterwards.
    Every pooled event has gained one reference for each time it was
    taken; a static event is not counted. *)
Theorem defer_all_leaves_one_slot (l : list EvtPtr) (eq : QEQueue)
    (w : World) :
  exists bs eq' w',
    defer_all l eq w = Done (bs, eq', w') /\
    length bs = length l /\
    (forall i, bs !! i = Some true <-> i < length l /\ i < nFree eq - 1) /\
    items eq' = items eq ++ take (nFree eq - 1) l /\
    capacity eq' = capacity eq /\
    (1 <= nFree eq -> 1 <= nFree eq') /\
    (forall p, refCtr_ (heap w' p)
               = refCtr_ (heap w p) +
                 (if pooled w p
                  then occurrences p (take (nFree eq - 1) l) else 0)).
Proof.
  destruct (defer_all_spec l eq w) as (w' & Hall & Hctr & _ & _).
  eexists _, _, w'. split; [exact Hall|]. cbn [items capacity].
  split_and!; try done.
  - rewrite length_app, !length_replicate. lia.
  - intros i. split.
    + intros Hi.
      destruct (decide (i < min (length l) (nFree eq - 1))) as [Hlt|Hge];
        [lia|].
      rewrite lookup_app_r in Hi by (rewrite length_replicate; lia).
      apply lookup_replicate in Hi as [? _]. done.
    + intros [Hl Hf]. rewrite lookup_app_l by (rewrite length_replicate; lia).
      apply lookup_replicate. split; [done|lia].
  - intros Hone. unfold nFree in *. cbn [items capacity].
    rewrite length_app, length_take. lia.
Qed.

Example defer_all_three_into_three :
  exists w',
    defer_all [7; 9; 11] (mkQEQueue [] 3) world0
    = Done ([true; true; false], mkQEQueue [7; 9] 3, w').
Proof. by eexists. Qed.

(** X5: several events deferred to an empty side queue that has more free
    slots than there are events, and then recalled, into an inbox with a
    free slot for each of them, until QActive::recall answers [false]:
    every defer and every recall succeeds, nothing dies in an assertion,
    the side queue is empty again, and the events stand in front of the
    inbox in the reverse of the order in which they were deferred.  Every
    pooled event ends with one more reference for each of its occurrences,
    as that many plain posts would have left it. *)
Theorem defer_all_recall_all (l : list EvtPtr) (fuel : nat) (me : QActive)
    (eq : QEQueue) (w : World) :
  items eq = [] -> length l < nFree eq -> length l < fuel ->
  length l <= nFree (m_eQueue me) ->
  exists eq1 w1 me2 eq2 w2,
    defer_all l eq w = Done (replicate (length l) true, eq1, w1) /\
    recall_all fuel me eq1 w1 = Some (Done (length l, me2, eq2, w2)) /\
    items eq2 = [] /\
    items (m_eQueue me2) = rev l ++ items (m_eQueue me) /\
    capacity (m_eQueue me2) = capacity (m_eQueue me) /\
    (forall p, refCtr_ (heap w2 p)
               = refCtr_ (heap w p) +
                 (if pooled w p then occurrences p l else 0)).
Proof.
  intros Hempty Hfree Hfuel Hroom.
  destruct (defer_all_spec l eq w) as (w1 & Hall & Hctr & Hpool & _).
  rewrite Hempty in Hall. cbn [app] in Hall.
  rewrite take_ge in Hall, Hctr by lia.
  rewrite Nat.min_l in Hall by lia.
  replace (length l - (nFree eq - 1)) with 0 in Hall by lia.
  cbn [replicate] in Hall. rewrite app_nil_r in Hall.
  assert (Hlive : live_in w1 l).
  { apply Forall_forall. intros e Hin Hp. rewrite Hctr.
    rewrite Hpool in Hp. rewrite Hp.
    pose proof (occurrences_elem e l Hin). lia. }
  destruct (recall_all_live l (capacity eq) fuel me w1 Hlive Hfuel Hroom)
    as (w2 & Hrec & Hheap & _).
  eexists _, w1, _, _, w2. split; [exact Hall|]. split; [exact Hrec|].
  split_and!; try done.
  intros p. by rewrite Hheap, Hctr.
Qed.

Lemma defer_all_recall_all_witness :
  items (mkQEQueue [] 4) = [] /\
  length [7; 9; 7] < nFree (mkQEQueue [] 4) /\ length [7; 9; 7] < 4 /\
  length [7; 9; 7] <= nFree (m_eQueue ao0) /\
  exists eq1 w1 me2 eq2 w2,
    defer_all [7; 9; 7] (mkQEQueue [] 4) world0
    = Done (replicate (length [7; 9; 7]) true, eq1, w1) /\
    recall_all 4 ao0 eq1 w1 = Some (Done (length [7; 9; 7], me2, eq2, w2)) /\
    items eq2 = [] /\
    items (m_eQueue me2) = rev [7; 9; 7] ++ items (m_eQueue ao0) /\
    capacity (m_eQueue me2) = capacity (m_eQueue ao0) /\
    (forall p, refCtr_ (heap w2 p)
               = refCtr_ (heap world0 p) +
                 (if pooled world0 p then occurrences p [7; 9; 7] else 0)).
Proof.
  assert (Hfree : length [7; 9; 7] < nFree (mkQEQueue [] 4)).
  { unfold nFree. simpl. lia. }
  assert (Hfuel : length [7; 9; 7] < 4) by (simpl; lia).
  assert (Hroom : length [7; 9; 7] <= nFree (m_eQueue ao0)).
  { unfold nFree. simpl. lia. }
  split; [reflexivity|]. split; [exact Hfree|]. split; [exact Hfuel|].
  split; [exact Hroom|].
  exact (defer_all_recall_all [7; 9; 7] 4 ao0 (mkQEQueue [] 4) world0
           eq_refl Hfree Hfuel Hroom).
Defined.

(** ** The ticker *)

Lemma turns_cons (msec : nat -> Z) (i m : nat) :
  turns msec i (S m)
  = [R_Sleep (msec i); R_onClockTick i] ++ turns msec (S i) m.
Proof. reflexivity. Qed.

(** The loop along a given course of the variables: it ends with the first
    turn that leaves [l_isRunning] false. *)
Lemma ticker_loop_course (app : App) (σ : nat -> QF) (m : nat) :
  forall (i fuel : nat) (trail : list RunStep),
    (forall k, i <= k <= i + m ->
               QF_onClockTick app k (σ k) = Done (σ (S k))) ->
    (forall k, i <= k < i + m -> l_isRunning (σ (S k)) = true) ->
    l_isRunning (σ (S (i + m))) = false ->
    m < fuel ->
    ticker_loop fuel app i (σ i) trail
    = Some (Done (σ (S (i + m)),
                  trail ++ turns (fun k => l_tickMsec (σ k)) i (S m))).
Proof.
  induction m as [|m IH]; intros i fuel trail Htick Hrun Hstop Hfuel;
    (destruct fuel as [|fuel]; [lia|]); cbn [ticker_loop].
  - rewrite Htick by lia. rewrite Nat.add_0_r in *. by rewrite Hstop.
  - rewrite Htick by lia. rewrite Hrun by lia.
    rewrite (IH (S i) fuel).
    + replace (S i + m) with (i + S m) by lia.
      by rewrite (turns_cons _ i (S m)), app_assoc.
    + intros k Hk. apply Htick. lia.
    + intros k Hk. apply Hrun. lia.
    + by replace (S i + m) with (i + S m) by lia.
    + lia.
Qed.

(** X6: QF::run returns 0 after the first turn of the ticker loop whose
    clock-tick callback leaves [l_isRunning] false (QF::stop was called):
    when that is turn [n], and no callback dies, any fuel above [n] is
    enough, and the run has called the startup callback, left the startup
    critical section, set the priority class chosen from [l_tickPrio],
    slept and ticked [n + 1] times, each sleep with the [l_tickMsec] of
    that moment, and called the cleanup callback and QS_EXIT. *)
Theorem run_returns_after_stop (app : App) (σ : nat -> QF) (n fuel : nat)
    (s s0 sN : QF) :
  onStartup app s = Done s0 ->
  σ 0 = set_isRunning true s0 ->
  (forall k, k <= n -> QF_onClockTick app k (σ k) = Done (σ (S k))) ->
  (forall k, k < n -> l_isRunning (σ (S k)) = true) ->
  l_isRunning (σ (S n)) = false ->
  onCleanup app (σ (S n)) = Done sN ->
  n < fuel ->
  QF_run_all fuel app s
  = Some (Done (0%Z, sN,
                [R_onStartup; R_LeaveCriticalSection;
                 R_SetThreadPriority (ticker_priority (l_tickPrio s0))] ++
                turns (fun k => l_tickMsec (σ k)) 0 (S n) ++
                [R_onCleanup; R_QS_EXIT])).
Proof.
  intros Hstart H0 Htick Hrun Hstop Hclean Hfuel.
  unfold QF_run_all. rewrite Hstart, <- H0.
  rewrite (ticker_loop_course app σ n 0 fuel); try done.
  - cbn [Nat.add]. rewrite Hclean, H0. cbn [l_tickPrio set_isRunning].
    by rewrite <- !app_assoc.
  - intros k Hk. apply Htick. lia.
  - intros k Hk. apply Hrun. lia.
Qed.

Lemma run_returns_after_stop_witness :
  QF_run_all 3 app_demo qf_boot
  = Some (Done (0%Z, QF_stop qf_ticking,
                [R_onStartup; R_LeaveCriticalSection;
                 R_SetThreadPriority
                   (ticker_priority (l_tickPrio (mkQF ∅ 10%Z 30%Z false [])))] ++
                turns (fun k => l_tickMsec (qf_demo k)) 0 3 ++
                [R_onCleanup; R_QS_EXIT])).
Proof.
  apply (run_returns_after_stop app_demo qf_demo 2 3 qf_boot
           (mkQF ∅ 10%Z 30%Z false []) (QF_stop qf_ticking)).
  - reflexivity.
  - reflexivity.
  - intros k Hk.
    destruct k as [|[|[|k]]]; [reflexivity|reflexivity|reflexivity|lia].
  - intros k Hk. destruct k as [|[|k]]; [reflexivity|reflexivity|lia].
  - reflexivity.
  - reflexivity.
  - lia.
Defined.

Example run_demo_trail :
  QF_run_all 3 app_demo qf_boot
  = Some (Done (0%Z, mkQF ∅ 10 30 false [],
                [R_onStartup; R_LeaveCriticalSection; R_SetThreadPriority (-1);
                 R_Sleep 10; R_onClockTick 0; R_Sleep 10; R_onClockTick 1;
                 R_Sleep 10; R_onClockTick 2; R_onCleanup; R_QS_EXIT])).
Proof. reflexivity. Qed.

(** Whatever the loop returns, it has slept and ticked at least once. *)
Lemma ticker_loop_first_turn (fuel : nat) (app : App) (n : nat) (s s' : QF)
    (trail trail' : list RunStep) :
  ticker_loop fuel app n s trail = Some (Done (s', trail')) ->
  l_isRunning s' = false /\
  exists rest,
    trail' = trail ++ [R_Sleep (l_tickMsec s); R_onClockTick n] ++ rest.
Proof.
  revert n s trail. induction fuel as [|fuel IH]; intros n s trail Hloop;
    [discriminate Hloop|].
  cbn [ticker_loop] in Hloop.
  destruct (QF_onClockTick app n s) as [s1|]; [|discriminate Hloop].
  destruct (l_isRunning s1) eqn:Hrun.
  - apply IH in Hloop as (Hoff & rest & ->). split; [done|].
    eexists. by rewrite <- !app_assoc.
  - injection Hloop as <- <-. split; [done|]. exists []. by rewrite app_nil_r.
Qed.

(** The loop calls no callback but the clock-tick one. *)
Lemma ticker_loop_callback (app app' : App) (fuel : nat) :
  QF_onClockTick app' = QF_onClockTick app ->
  forall n s trail,
    ticker_loop fuel app' n s trail = ticker_loop fuel app n s trail.
Proof.
  intros Hsame. induction fuel as [|fuel IH]; intros n s trail; [done|].
  cbn [ticker_loop]. rewrite Hsame.
  destruct (QF_onClockTick app n s) as [s1|]; [|done].
  by rewrite IH.
Qed.

(** X7: a QF::run that returns has returned 0 and has gone through the
    ticker loop at least once, whatever [l_isRunning] was before and
    whatever the startup callback did to it: the loop tests the flag only
    after a tick, and QF::run sets the flag itself before the loop.  So a
    QF::stop issued before the loop, for instance by the startup callback,
    is forgotten: the run is the same with and without it. *)
Theorem run_ticks_at_least_once (fuel : nat) (app : App) (s : QF) :
  QF_run_all fuel (stop_in_startup app) s = QF_run_all fuel app s /\
  forall r s' trail,
    QF_run_all fuel app s = Some (Done (r, s', trail)) ->
    r = 0%Z /\
    exists threadPrio msec rest,
      trail = [R_onStartup; R_LeaveCriticalSection;
               R_SetThreadPriority threadPrio;
               R_Sleep msec; R_onClockTick 0] ++ rest ++
              [R_onCleanup; R_QS_EXIT].
Proof.
  split.
  - unfold QF_run_all.
    change (onStartup (stop_in_startup app) s)
      with (s1 ← onStartup app s; Done (QF_stop s1)).
    change (onCleanup (stop_in_startup app)) with (onCleanup app).
    destruct (onStartup app s) as [s0|]; cbn [mbind outcome_bind]; [|done].
    by rewrite (ticker_loop_callback app (stop_in_startup app)).
  - intros r s' trail. unfold QF_run_all.
    destruct (onStartup app s) as [s0|]; [|discriminate].
    destruct (ticker_loop fuel app 0 (set_isRunning true s0) _)
      as [[[s1 trail1]|]|] eqn:Hloop; try discriminate.
    destruct (onCleanup app s1) as [s2|]; [|discriminate].
    intros [= <- <- <-]. split; [done|].
    apply ticker_loop_first_turn in Hloop as (_ & rest & ->).
    by eexists _, _, rest.
Qed.

(** The loop when no callback touches the tick period: every sleep has
    the same length. *)
Lemma ticker_loop_steady (app : App) (fuel : nat) :
  forall (n : nat) (s s' : QF) (trail trail' : list RunStep),
    (forall k s1 s2, QF_onClockTick app k s1 = Done s2 ->
                     l_tickMsec s2 = l_tickMsec s1) ->
    ticker_loop fuel app n s trail = Some (Done (s', trail')) ->
    exists m,
      trail' = trail ++ turns (fun _ => l_tickMsec s) n (S m).
Proof.
  induction fuel as [|fuel IH]; intros n s s' trail trail' Hkeep Hloop;
    [discriminate Hloop|].
  cbn [ticker_loop] in Hloop.
  destruct (QF_onClockTick app n s) as [s1|] eqn:Htick; [|discriminate Hloop].
  destruct (l_isRunning s1) eqn:Hrun.
  - apply IH in Hloop as (m & ->); [|done].
    exists (S m). rewrite (Hkeep n s s1 Htick).
    by rewrite (turns_cons _ n (S m)), app_assoc.
  - injection Hloop as <- <-. by exists 0.
Qed.

(** X8: a tick rate configured by the startup callback governs the whole
    run: when the callback is QF_setTickRate(ticksPerSec, tickPrio) with a
    nonzero rate and no clock-tick callback changes the tick period, a
    QF::run that returns has given the ticker thread the priority class of
    the hint (below normal under 33, above normal over 66, normal in
    between) and has slept 1000 / ticksPerSec milliseconds before each of
    its ticks, of which there is at least one. *)
Theorem tick_rate_governs_run (app : App) (fuel : nat) (ticksPerSec tickPrio r : Z)
    (s s' : QF) (trail : list RunStep) :
  (0 < ticksPerSec < 2 ^ 32)%Z ->
  (forall s0, onStartup app s0 = QF_setTickRate ticksPerSec tickPrio s0) ->
  (forall k s1 s2, QF_onClockTick app k s1 = Done s2 ->
                   l_tickMsec s2 = l_tickMsec s1) ->
  QF_run_all fuel app s = Some (Done (r, s', trail)) ->
  exists m,
    trail = [R_onStartup; R_LeaveCriticalSection;
             R_SetThreadPriority
               (if (tickPrio <? 33)%Z then THREAD_PRIORITY_BELOW_NORMAL
                else if (66 <? tickPrio)%Z then THREAD_PRIORITY_ABOVE_NORMAL
                else THREAD_PRIORITY_NORMAL)] ++
            turns (fun _ => (1000 / ticksPerSec)%Z) 0 (S m) ++
            [R_onCleanup; R_QS_EXIT].
Proof.
  intros Hrate Hstart Hkeep. unfold QF_run_all. rewrite Hstart.
  unfold QF_setTickRate.
  destruct (ticksPerSec =? 0)%Z eqn:Hz; [apply Z.eqb_eq in Hz; lia|].
  cbn [negb Q_REQUIRE_ID Q_ASSERT_ID mbind outcome_bind].
  destruct (ticker_loop fuel app 0 _ _) as [[[s1 trail1]|]|] eqn:Hloop;
    try discriminate.
  destruct (onCleanup app s1) as [s2|]; [|discriminate].
  intros [= <- <- <-].
  apply ticker_loop_steady in Hloop as (m & ->); [|done].
  exists m. cbn [l_tickMsec l_tickPrio set_isRunning]. unfold wrap32.
  rewrite Z.mod_small.
  - by rewrite <- !app_assoc.
  - split; [apply Z.div_pos; lia|].
    apply Z.le_lt_trans with 1000%Z; [|done].
    apply Z.div_le_upper_bound; nia.
Qed.

Lemma tick_rate_governs_run_witness :
  (0 < 100 < 2 ^ 32)%Z /\
  exists m,
    [R_onStartup; R_LeaveCriticalSection; R_SetThreadPriority (-1);
     R_Sleep 10; R_onClockTick 0; R_Sleep 10; R_onClockTick 1;
     R_Sleep 10; R_onClockTick 2; R_onCleanup; R_QS_EXIT]
    = [R_onStartup; R_LeaveCriticalSection;
       R_SetThreadPriority
         (if (30 <? 33)%Z then THREAD_PRIORITY_BELOW_NORMAL
          else if (66 <? 30)%Z then THREAD_PRIORITY_ABOVE_NORMAL
          else THREAD_PRIORITY_NORMAL)] ++
      turns (fun _ => (1000 / 100)%Z) 0 (S m) ++
      [R_onCleanup; R_QS_EXIT].
Proof.
  split; [lia|].
  apply (tick_rate_governs_run app_demo 3 100 30 0 qf_boot
           (mkQF ∅ 10 30 false [])).
  - lia.
  - reflexivity.
  - intros k s1 s2. simpl. destruct (k =? 2); by intros [= <-].
  - reflexivity.
Defined.

(** ** The Win32 priority of an active object *)

(** X9: a Win32 priority set with QF_setWin32Prio before the start (no
    thread yet) is kept in [m_osObject] and applied by QActive::start: a
    start that goes through creates the thread and then, when the priority
    is not 0 (normal), sets it on that thread, as the last step; with
    priority 0 no priority is set.  The slot then holds the handle of the
    Win32 event. *)
Theorem win32Prio_applied_by_start `{QFConfig} (os : Win32) (this : AOPtr)
    (act me' : QActive) (args : StartArgs) (win32Prio : Z) (s s' : QF) :
  m_thread act = 0%Z ->
  QActive_start os this (QF_setWin32Prio act win32Prio s).1 args
                (QF_setWin32Prio act win32Prio s).2 = Done (me', s') ->
  effects s' = effects s ++ start_steps this args ++
               (if (win32Prio =? 0)%Z then []
                else [E_SetThreadPriority (CreateThread_ os) win32Prio]) /\
  m_osObject me' = CreateEvent_ os /\
  m_thread me' = CreateThread_ os.
Proof.
  intros Hnone. unfold QF_setWin32Prio. rewrite Hnone. cbn [Z.eqb fst snd].
  intros Hdone.
  destruct (start_cases os this (set_osObject win32Prio act) args s)
    as [[_ Hr]|[(_ & _ & _ & Hr)|[(_ & _ & _ & _ & Hr)
       |(_ & _ & _ & _ & me1 & s1 & Hr & Hs)]]];
    cbv zeta in Hr; rewrite Hr in Hdone; try discriminate Hdone.
  injection Hdone as <- <-.
  by destruct Hs as (_ & _ & Hos & Hthr & _ & _ & _ & _ & Heff).
Qed.

Lemma win32Prio_applied_by_start_witness :
  m_thread ao_fresh = 0%Z /\
  exists me' s',
    @QActive_start win32_config os0 6 (QF_setWin32Prio ao_fresh 2 qf_boot).1
                   args0 (QF_setWin32Prio ao_fresh 2 qf_boot).2
    = Done (me', s') /\
    effects s' = effects qf_boot ++ start_steps 6 args0 ++
                 (if (2 =? 0)%Z then []
                  else [E_SetThreadPriority (CreateThread_ os0) 2]) /\
    m_osObject me' = CreateEvent_ os0 /\
    m_thread me' = CreateThread_ os0.
Proof.
  split; [reflexivity|]. eexists _, _. split; [reflexivity|].
  eapply (@win32Prio_applied_by_start win32_config os0 6 ao_fresh _ args0 2
            qf_boot _); reflexivity.
Defined.

(** X10: on an active object that QActive::start has started,
    QF_setWin32Prio sets the priority on the thread of the object at once
    and leaves the object alone; in particular the handle of the Win32
    event in [m_osObject], which has taken the place of the stored
    priority, is not overwritten. *)
Theorem win32Prio_on_started `{QFConfig} (os : Win32) (this : AOPtr)
    (me me' : QActive) (args : StartArgs) (win32Prio : Z) (s s' : QF) :
  QActive_start os this me args s = Done (me', s') ->
  QF_setWin32Prio me' win32Prio s'
  = (me', log (E_SetThreadPriority (CreateThread_ os) win32Prio) s') /\
  m_osObject (QF_setWin32Prio me' win32Prio s').1 = CreateEvent_ os.
Proof.
  intros Hdone.
  destruct (start_cases os this me args s)
    as [[_ Hr]|[(_ & _ & _ & Hr)|[(_ & _ & _ & _ & Hr)
       |(_ & _ & _ & Ht & me1 & s1 & Hr & Hs)]]];
    cbv zeta in Hr; rewrite Hr in Hdone; try discriminate Hdone.
  injection Hdone as <- <-.
  destruct Hs as (_ & _ & Hos & Hthr & _).
  unfold QF_setWin32Prio. rewrite Hthr.
  apply Z.eqb_neq in Ht. by rewrite Ht.
Qed.

Lemma win32Prio_on_started_witness :
  exists me' s',
    @QActive_start win32_config os0 6 ao_fresh args0 qf_boot = Done (me', s') /\
    QF_setWin32Prio me' 2 s'
    = (me', log (E_SetThreadPriority (CreateThread_ os0) 2) s') /\
    m_osObject (QF_setWin32Prio me' 2 s').1 = CreateEvent_ os0.
Proof.
  eexists _, _. split; [reflexivity|].
  eapply (@win32Prio_on_started win32_config os0 6 ao_fresh _ args0 2
            qf_boot _). reflexivity.
Defined.

(** ** Invariants of the threads *)

Section Threads.
Context `{QFConfig}.

Lemma dispatched_snoc (a : AOPtr) (h : list Obs) (o : Obs) :
  dispatched a (h ++ [o]) = dispatched a h ++ dispatched a [o].
Proof.
  induction h as [|o' h IH]; [done|].
  simpl. destruct o'; try done. rewrite IH. by case_bool_decide.
Qed.

Lemma posted_cons (a : AOPtr) (l : Label) (sch : list Label) :
  posted a (l :: sch) = posted a [l] ++ posted a sch.
Proof. destruct l; try done. simpl. by case_bool_decide. Qed.

Lemma lifo_free_cons (a : AOPtr) (l : Label) (sch : list Label) :
  lifo_free a (l :: sch) = lifo_free a [l] && lifo_free a sch.
Proof. destruct l; try done. simpl. by rewrite andb_true_r. Qed.

(** One statement of a thread, seen from the events of the object [a]. *)
Lemma thread_step_fifo (a : AOPtr) (P : list EvtPtr) (b : AOPtr) (u : Thread)
    (s s' : Sys) :
  fifo_inv a P s -> threads s !! b = Some u -> QF_thread_ b u s = Some s' ->
  fifo_inv a P s'.
Proof.
  unfold fifo_inv. intros Hinv Hub Hstep.
  unfold QF_thread_ in Hstep. cbv zeta in Hstep.
  destruct (decide (a = b)) as [->|Hne].
  - rewrite Hub in Hinv.
    destruct (t_pc u) eqn:Hpc; try discriminate Hstep.
    + (* EnterCriticalSection *)
      destruct (l_startupCritSect s); [discriminate Hstep|].
      injection Hstep as <-. simpl. by rewrite lookup_insert_eq.
    + injection Hstep as <-. simpl. by rewrite lookup_insert_eq.
    + (* get_ *)
      destruct (items (m_eQueue (t_act u))) as [|e rest] eqn:Hitems;
        [discriminate Hstep|].
      injection Hstep as <-. simpl. by rewrite lookup_insert_eq.
    + (* dispatch *)
      injection Hstep as <-. simpl. rewrite lookup_insert_eq. simpl.
      rewrite dispatched_snoc. simpl.
      rewrite bool_decide_eq_true_2 by done. simpl in Hinv.
      by rewrite <- app_assoc.
    + injection Hstep as <-. simpl. rewrite lookup_insert_eq. simpl.
      rewrite dispatched_snoc. simpl. by rewrite app_nil_r.
    + injection Hstep as <-. simpl. rewrite lookup_insert_eq. simpl.
      by destruct (m_thread (t_act u) =? 0)%Z.
    + injection Hstep as <-. simpl. rewrite lookup_insert_eq. simpl.
      rewrite dispatched_snoc. simpl. by rewrite app_nil_r.
    + injection Hstep as <-. simpl. rewrite lookup_insert_eq. simpl.
      rewrite dispatched_snoc. simpl. by rewrite app_nil_r.
    + injection Hstep as <-. simpl. rewrite lookup_insert_eq. simpl.
      rewrite dispatched_snoc. simpl. by rewrite app_nil_r.
  - assert (Hne' : b <> a) by done.
    destruct (t_pc u) eqn:Hpc; try discriminate Hstep;
      case_step Hstep; injection Hstep as <-; simpl;
      rewrite lookup_insert_ne by done;
      rewrite ?dispatched_snoc; simpl;
      rewrite ?bool_decide_eq_false_2 by done;
      by rewrite ?app_nil_r.
Qed.

(** Every move but a LIFO post to [a] keeps the account of the events
    posted to [a]. *)
Lemma step_fifo (a : AOPtr) (P : list EvtPtr) (l : Label) (s s' : Sys) :
  fifo_inv a P s -> lifo_free a [l] = true -> step l s = Some s' ->
  fifo_inv a (P ++ posted a [l]) s'.
Proof.
  intros Hinv Hfree Hstep.
  destruct l as [|os b me args|b| |b|b e|b e|b].
  - simpl in Hstep. destruct (main_pc s); try discriminate Hstep.
    injection Hstep as <-. unfold fifo_inv in *. simpl. by rewrite app_nil_r.
  - destruct (step_start_inv os b me args s s' Hstep)
      as (_ & Htb & _ & _ & _ & me1 & q1 & p & _ & Hc & ->).
    destruct Hc as (Hq & _).
    unfold fifo_inv in *. simpl. rewrite app_nil_r.
    destruct (decide (b = a)) as [->|Hne].
    + rewrite lookup_insert_eq. rewrite Htb in Hinv.
      destruct Hinv as [-> ->]. simpl. by rewrite Hq.
    + by rewrite lookup_insert_ne.
  - simpl in Hstep.
    destruct (starting s !! b) as [[os p]|]; [|discriminate Hstep].
    simpl in Hstep.
    destruct (threads s !! b) as [u|] eqn:Htb; [|discriminate Hstep].
    simpl in Hstep.
    destruct (start_store_cases os p (t_act u) (qf s)) as [[_ Hr]|[_ Hr]];
      rewrite Hr in Hstep; [discriminate Hstep|].
    injection Hstep as <-. unfold fifo_inv in *. simpl. rewrite app_nil_r.
    destruct (decide (b = a)) as [->|Hne].
    + rewrite lookup_insert_eq. by rewrite Htb in Hinv.
    + by rewrite lookup_insert_ne.
  - simpl in Hstep. destruct (main_pc s); try discriminate Hstep.
    injection Hstep as <-. unfold fifo_inv in *. simpl. by rewrite app_nil_r.
  - simpl in Hstep.
    destruct (threads s !! b) as [u|] eqn:Htb; try discriminate Hstep.
    injection Hstep as <-. unfold fifo_inv in *. simpl.
    rewrite app_nil_r. destruct (decide (b = a)) as [->|Hne].
    + rewrite lookup_insert_eq. by rewrite Htb in Hinv.
    + by rewrite lookup_insert_ne.
  - simpl in Hstep.
    destruct (threads s !! b) as [u|] eqn:Htb; try discriminate Hstep.
    simpl in Hstep.
    destruct (0 <? nFree (m_eQueue (t_act u))); try discriminate Hstep.
    injection Hstep as <-. unfold fifo_inv in *. simpl.
    destruct (decide (b = a)) as [->|Hne].
    + rewrite lookup_insert_eq. rewrite Htb in Hinv. simpl.
      rewrite bool_decide_eq_true_2 by done. rewrite <- Hinv.
      by rewrite <- !app_assoc.
    + rewrite lookup_insert_ne by done.
      rewrite bool_decide_eq_false_2 by done. by rewrite app_nil_r.
  - simpl in Hfree. rewrite andb_true_r in Hfree.
    apply negb_true_iff, bool_decide_eq_false in Hfree.
    simpl in Hstep.
    destruct (threads s !! b) as [u|] eqn:Htb; try discriminate Hstep.
    simpl in Hstep.
    destruct (t_pc u); try discriminate Hstep.
    destruct (0 <? nFree (m_eQueue (t_act u))); try discriminate Hstep.
    injection Hstep as <-. unfold fifo_inv in *. simpl.
    rewrite app_nil_r. by rewrite lookup_insert_ne.
  - simpl in Hstep.
    destruct (threads s !! b) as [u|] eqn:Htb; try discriminate Hstep.
    simpl in Hstep. simpl. rewrite app_nil_r.
    by apply (thread_step_fifo a P b u s).
Qed.

Lemma exec_fifo (a : AOPtr) (sch : list Label) :
  forall (P : list EvtPtr) (s s' : Sys),
    fifo_inv a P s -> lifo_free a sch = true -> exec sch s = Some s' ->
    fifo_inv a (P ++ posted a sch) s'.
Proof.
  induction sch as [|l sch IH]; intros P s s' Hinv Hfree Hexec;
    simpl in Hexec.
  - injection Hexec as <-. simpl. by rewrite app_nil_r.
  - destruct (step l s) as [s1|] eqn:Hstep; [|discriminate Hexec].
    rewrite lifo_free_cons in Hfree.
    apply andb_true_iff in Hfree as [Hl Hsch].
    rewrite (posted_cons a l sch), app_assoc.
    apply (IH _ s1); [|done|done]. by apply (step_fifo a P l s).
Qed.

(** X11: for an active object to which nothing is posted LIFO (its state
    machine recalls no deferred event), in every state the system reaches,
    the events posted to it are, in the order of the posts, those its
    thread has dispatched, then the one it has taken and is about to
    dispatch, then those waiting in its inbox: QF::thread_ dispatches in
    the order of posting, skips no event and dispatches none twice. *)
Theorem dispatch_in_posting_order (sch : list Label) (s : Sys) (a : AOPtr)
    (t : Thread) :
  exec sch sys_boot = Some s ->
  lifo_free a sch = true ->
  threads s !! a = Some t ->
  dispatched a (history s) ++ in_flight (t_pc t) ++
  items (m_eQueue (t_act t)) = posted a sch.
Proof.
  intros Hexec Hfree Hta.
  assert (Hboot : fifo_inv a [] sys_boot).
  { unfold fifo_inv. simpl. by rewrite lookup_empty. }
  pose proof (exec_fifo a sch [] sys_boot s Hboot Hfree Hexec) as Hinv.
  unfold fifo_inv in Hinv. by rewrite Hta in Hinv.
Qed.

End Threads.

Lemma dispatch_in_posting_order_witness :
  @exec win32_config sch_two sys_boot = Some sys_two /\
  lifo_free 6 sch_two = true /\
  threads sys_two !! 6 = Some thread_two /\
  dispatched 6 (history sys_two) = [9] /\
  in_flight (t_pc thread_two) = [11] /\
  dispatched 6 (history sys_two) ++ in_flight (t_pc thread_two) ++
  items (m_eQueue (t_act thread_two)) = posted 6 sch_two.
Proof.
  assert (Hexec : @exec win32_config sch_two sys_boot = Some sys_two).
  { vm_compute. reflexivity. }
  assert (Hta : threads sys_two !! 6 = Some thread_two).
  { vm_compute. reflexivity. }
  split; [exact Hexec|]. split; [reflexivity|]. split; [exact Hta|].
  split; [vm_compute; reflexivity|]. split; [vm_compute; reflexivity|].
  exact (@dispatch_in_posting_order win32_config sch_two sys_two 6 thread_two
           Hexec eq_refl Hta).
Defined.

(** An event posted LIFO from within a dispatch overtakes the events that
    wait in the inbox: posted 9 and 11, with 7 recalled while 9 is being
    dispatched, the thread dispatches 9, 7, 11. *)
Example recalled_event_overtakes :
  history <$> @exec win32_config
                [L_init; L_start os0 6 ao_fresh args0; L_store 6;
                 L_post 6 9; L_post 6 11; L_run;
                 L_thread 6; L_thread 6; L_thread 6; L_postLIFO 6 7;
                 L_thread 6; L_thread 6; L_thread 6;
                 L_thread 6; L_thread 6; L_thread 6; L_thread 6;
                 L_thread 6; L_thread 6]
                sys_boot
  = Some [Dispatched 6 9; Collected 6 9; Dispatched 6 7; Collected 6 7;
          Dispatched 6 11].
Proof. vm_compute. reflexivity. Qed.

(** A LIFO post has no place outside a dispatch, and none in a full
    inbox. *)
Example postLIFO_outside_dispatch :
  @exec win32_config (sch_running ++ [L_postLIFO 6 7]) sys_boot = None.
Proof. vm_compute. reflexivity. Qed.

Section Running.
Context `{QFConfig}.

(** X12: in every state the system reaches, the registry and the threads
    agree: an active object is registered under its priority from its start
    until its thread has executed QF::remove_, every registry slot that is
    taken holds such an object under a priority in [1, QF_MAX_ACTIVE], and
    so two registered active objects never have the same priority. *)
Theorem registry_tracks_threads (sch : list Label) (s : Sys) :
  exec sch sys_boot = Some s ->
  (forall a t, threads s !! a = Some t -> registered_pc (t_pc t) = true ->
               active_ (qf s) !! m_prio (t_act t) = Some a) /\
  (forall p a, active_ (qf s) !! p = Some a ->
               (1 <= p <= QF_MAX_ACTIVE)%Z /\
               exists t, threads s !! a = Some t /\ m_prio (t_act t) = p /\
                         registered_pc (t_pc t) = true) /\
  (forall a b ta tb,
     threads s !! a = Some ta -> threads s !! b = Some tb ->
     registered_pc (t_pc ta) = true -> registered_pc (t_pc tb) = true ->
     m_prio (t_act ta) = m_prio (t_act tb) -> a = b).
Proof.
  intros Hexec.
  destruct (exec_registry_inv sch sys_boot s registry_inv_boot Hexec)
    as (_ & Hin & Hout).
  split; [done|]. split; [done|].
  intros a b ta tb Hta Htb Hra Hrb Heq.
  pose proof (Hin a ta Hta Hra) as Ha. pose proof (Hin b tb Htb Hrb) as Hb.
  rewrite Heq, Hb in Ha. by injection Ha.
Qed.

Lemma stop_free_cons (a : AOPtr) (l : Label) (sch : list Label) :
  stop_free a (l :: sch) = stop_free a [l] && stop_free a sch.
Proof. destruct l; try done. simpl. by rewrite andb_true_r. Qed.

Lemma stop_free_app (a : AOPtr) (sch1 sch2 : list Label) :
  stop_free a (sch1 ++ sch2) = stop_free a sch1 && stop_free a sch2.
Proof.
  induction sch1 as [|l sch1 IH]; [done|].
  rewrite <- app_comm_cons, (stop_free_cons a l (sch1 ++ sch2)),
    (stop_free_cons a l sch1), IH. by rewrite andb_assoc.
Qed.

(** Every move but a stop of [a] keeps the handle that the start of [a]
    has stored. *)
Lemma step_handle_stored (a : AOPtr) (l : Label) (s s' : Sys) :
  handle_stored a s -> stop_free a [l] = true -> step l s = Some s' ->
  handle_stored a s'.
Proof.
  unfold handle_stored, start_returned. intros Hinv Hfree Hstep.
  destruct l as [|os b me args|b| |b|b e|b e|b].
  - simpl in Hstep. destruct (main_pc s); try discriminate Hstep.
    by injection Hstep as <-.
  - destruct (step_start_inv os b me args s s' Hstep)
      as (_ & Htb & _ & _ & _ & me1 & q1 & p & _ & _ & ->).
    simpl. intros t. destruct (decide (b = a)) as [->|Hne].
    + by rewrite !lookup_insert_eq.
    + rewrite !lookup_insert_ne by done. apply Hinv.
  - simpl in Hstep.
    destruct (starting s !! b) as [[os p]|] eqn:Hsb; [|discriminate Hstep].
    simpl in Hstep.
    destruct (threads s !! b) as [u|] eqn:Htb; [|discriminate Hstep].
    simpl in Hstep.
    destruct (start_store_cases os p (t_act u) (qf s)) as [[_ Hr]|[Hthr Hr]];
      rewrite Hr in Hstep; [discriminate Hstep|].
    injection Hstep as <-. simpl. intros t.
    destruct (decide (b = a)) as [->|Hne].
    + rewrite lookup_insert_eq. by intros [= <-] _.
    + rewrite lookup_insert_ne, lookup_delete_ne by done. apply Hinv.
  - simpl in Hstep. destruct (main_pc s); try discriminate Hstep.
    by injection Hstep as <-.
  - simpl in Hfree. rewrite andb_true_r in Hfree.
    apply negb_true_iff, bool_decide_eq_false in Hfree.
    simpl in Hstep.
    destruct (threads s !! b) as [u|] eqn:Htb; try discriminate Hstep.
    injection Hstep as <-. simpl. intros t.
    rewrite lookup_insert_ne by done. apply Hinv.
  - simpl in Hstep.
    destruct (threads s !! b) as [u|] eqn:Htb; try discriminate Hstep.
    simpl in Hstep.
    destruct (0 <? nFree (m_eQueue (t_act u))); try discriminate Hstep.
    injection Hstep as <-. simpl. intros t.
    destruct (decide (b = a)) as [->|Hne].
    + rewrite lookup_insert_eq. intros [= <-]. simpl. by apply Hinv.
    + rewrite lookup_insert_ne by done. apply Hinv.
  - simpl in Hstep.
    destruct (threads s !! b) as [u|] eqn:Htb; try discriminate Hstep.
    simpl in Hstep.
    destruct (t_pc u); try discriminate Hstep.
    destruct (0 <? nFree (m_eQueue (t_act u))); try discriminate Hstep.
    injection Hstep as <-. simpl. intros t.
    destruct (decide (b = a)) as [->|Hne].
    + rewrite lookup_insert_eq. intros [= <-]. simpl. by apply Hinv.
    + rewrite lookup_insert_ne by done. apply Hinv.
  - simpl in Hstep.
    destruct (threads s !! b) as [u|] eqn:Htb; try discriminate Hstep.
    simpl in Hstep.
    destruct (thread_step_inv b u s s' Hstep)
      as (u' & Hth & _ & _ & Hst & _ & _ & Hthr & _).
    rewrite Hth, Hst. intros t. destruct (decide (b = a)) as [->|Hne].
    + rewrite lookup_insert_eq. intros [= <-]. rewrite Hthr. by apply Hinv.
    + rewrite lookup_insert_ne by done. apply Hinv.
Qed.

Lemma exec_handle_stored (a : AOPtr) (sch : list Label) (s s' : Sys) :
  handle_stored a s -> stop_free a sch = true -> exec sch s = Some s' ->
  handle_stored a s'.
Proof.
  revert s. induction sch as [|l sch IH]; intros s Hinv Hfree Hexec;
    simpl in Hexec.
  - by injection Hexec as <-.
  - destruct (step l s) as [s1|] eqn:Hstep; [|discriminate Hexec].
    rewrite stop_free_cons in Hfree.
    apply andb_true_iff in Hfree as [Hl Hsch].
    apply (IH s1); [|done|done]. by apply (step_handle_stored a l s).
Qed.

(** Every move but a stop of [a] keeps the thread of [a] going, once the
    start of [a] has returned. *)
Lemma step_keeps_running (a : AOPtr) (l : Label) (s s' : Sys) :
  keeps_running a s -> stop_free a [l] = true -> step l s = Some s' ->
  keeps_running a s'.
Proof.
  unfold keeps_running, start_returned.
  intros (Hret & t & Hta & Hthr & Hloop) Hfree Hstep.
  destruct l as [|os b me args|b| |b|b e|b e|b].
  - simpl in Hstep. destruct (main_pc s); try discriminate Hstep.
    injection Hstep as <-. simpl. split; [done|by exists t].
  - destruct (step_start_inv os b me args s s' Hstep)
      as (_ & Htb & _ & _ & _ & me1 & q1 & p & _ & _ & ->).
    assert (Hne : b <> a) by (intros ->; by rewrite Hta in Htb).
    simpl. rewrite !lookup_insert_ne by done. split; [done|by exists t].
  - simpl in Hstep.
    destruct (starting s !! b) as [[os p]|] eqn:Hsb; [|discriminate Hstep].
    assert (Hne : b <> a) by (intros ->; by rewrite Hret in Hsb).
    simpl in Hstep.
    destruct (threads s !! b) as [u|] eqn:Htb; [|discriminate Hstep].
    simpl in Hstep.
    destruct (QActive_start_store os p (t_act u) (qf s)) as [[me' q']|];
      [|discriminate Hstep].
    injection Hstep as <-. simpl.
    rewrite lookup_insert_ne, lookup_delete_ne by done.
    split; [done|by exists t].
  - simpl in Hstep. destruct (main_pc s); try discriminate Hstep.
    injection Hstep as <-. simpl. split; [done|by exists t].
  - simpl in Hfree. rewrite andb_true_r in Hfree.
    apply negb_true_iff, bool_decide_eq_false in Hfree.
    simpl in Hstep.
    destruct (threads s !! b) as [u|] eqn:Htb; try discriminate Hstep.
    injection Hstep as <-. simpl.
    rewrite lookup_insert_ne by done. split; [done|by exists t].
  - simpl in Hstep.
    destruct (threads s !! b) as [u|] eqn:Htb; try discriminate Hstep.
    simpl in Hstep.
    destruct (0 <? nFree (m_eQueue (t_act u))); try discriminate Hstep.
    injection Hstep as <-. simpl. split; [done|].
    destruct (decide (b = a)) as [->|Hne].
    + rewrite lookup_insert_eq. rewrite Hta in Htb. injection Htb as <-.
      by eexists.
    + rewrite lookup_insert_ne by done. by exists t.
  - simpl in Hstep.
    destruct (threads s !! b) as [u|] eqn:Htb; try discriminate Hstep.
    simpl in Hstep.
    destruct (t_pc u) eqn:Hpu; try discriminate Hstep.
    destruct (0 <? nFree (m_eQueue (t_act u))); try discriminate Hstep.
    injection Hstep as <-. simpl. split; [done|].
    destruct (decide (b = a)) as [->|Hne].
    + rewrite lookup_insert_eq. rewrite Hta in Htb. injection Htb as <-.
      eexists. split; [done|]. simpl. by rewrite Hpu in Hloop.
    + rewrite lookup_insert_ne by done. by exists t.
  - simpl in Hstep.
    destruct (threads s !! b) as [u|] eqn:Htb; try discriminate Hstep.
    simpl in Hstep. destruct (decide (a = b)) as [<-|Hne].
    + rewrite Hta in Htb. injection Htb as <-.
      unfold QF_thread_ in Hstep. cbv zeta in Hstep.
      apply Z.eqb_neq in Hthr.
      destruct (t_pc t) eqn:Hpc; try discriminate Hloop;
        rewrite ?Hthr in Hstep; case_step Hstep; injection Hstep as <-;
        simpl; rewrite lookup_insert_eq; (split; [done|]);
        eexists; (split; [done|]); simpl; by apply Z.eqb_neq in Hthr.
    + destruct (other_thread_step a b u s s' Hne Hstep) as (Hth & _ & Hst).
      rewrite Hth, Hst. split; [done|by exists t].
Qed.

Lemma exec_keeps_running (a : AOPtr) (sch : list Label) (s s' : Sys) :
  keeps_running a s -> stop_free a sch = true -> exec sch s = Some s' ->
  keeps_running a s'.
Proof.
  revert s. induction sch as [|l sch IH]; intros s Hinv Hfree Hexec;
    simpl in Hexec.
  - by injection Hexec as <-.
  - destruct (step l s) as [s1|] eqn:Hstep; [|discriminate Hexec].
    rewrite stop_free_cons in Hfree.
    apply andb_true_iff in Hfree as [Hl Hsch].
    apply (IH s1); [|done|done]. by apply (step_keeps_running a l s).
Qed.

(** X13: an active object that is started before QF::run, whose
    QActive::start has returned by then, and that is never stopped never
    leaves its loop: in every state reached from there by a schedule
    without a QActive::stop of the object, its [m_thread] is not null, its
    thread is at the startup gate or inside the loop of QF::thread_ (it has
    not unsubscribed, not removed itself and not closed its handle), and
    the object is still in the registry under its priority. *)
Theorem no_exit_without_stop (sch1 sch2 : list Label) (s1 s : Sys)
    (a : AOPtr) (t : Thread) :
  exec sch1 sys_boot = Some s1 ->
  main_pc s1 <> InRun ->
  is_Some (threads s1 !! a) ->
  start_returned a s1 ->
  exec sch2 s1 = Some s ->
  stop_free a (sch1 ++ sch2) = true ->
  threads s !! a = Some t ->
  m_thread (t_act t) <> 0%Z /\
  in_loop (t_pc t) = true /\
  active_ (qf s) !! m_prio (t_act t) = Some a.
Proof.
  intros Hexec1 Hmain [t1 Hta1] Hret Hexec2 Hfree Hta.
  rewrite stop_free_app in Hfree. apply andb_true_iff in Hfree as [Hf1 Hf2].
  assert (Hboot : handle_stored a sys_boot).
  { intros u. simpl. by rewrite lookup_empty. }
  pose proof (exec_handle_stored a sch1 sys_boot s1 Hboot Hf1 Hexec1 t1
                Hta1 Hret) as Hthr1.
  assert (Hgate : t_pc t1 = AtEnterStartup).
  { pose proof (exec_gate_inv sch1 sys_boot s1 gate_inv_boot Hexec1) as Hg.
    unfold gate_inv in Hg. destruct (main_pc s1); [| |done].
    - destruct Hg as (Hnone & _). by rewrite Hnone, lookup_empty in Hta1.
    - destruct Hg as (_ & _ & _ & Hall). by apply (Hall a). }
  assert (Hrun1 : keeps_running a s1).
  { split; [done|]. exists t1. split; [done|]. split; [done|].
    by rewrite Hgate. }
  destruct (exec_keeps_running a sch2 s1 s Hrun1 Hf2 Hexec2)
    as (_ & t' & Hta' & Hthr & Hloop).
  rewrite Hta in Hta'. injection Hta' as <-.
  split; [done|]. split; [done|].
  assert (Hreg : registry_inv s).
  { apply (exec_registry_inv (sch1 ++ sch2) sys_boot);
      [apply registry_inv_boot|]. by rewrite exec_app, Hexec1. }
  destruct Hreg as (_ & Hin & _).
  apply Hin; [done|]. by destruct (t_pc t).
Qed.

End Running.

Lemma registry_tracks_threads_witness :
  @exec win32_config sch_two sys_boot = Some sys_two /\
  active_ (qf sys_two) = {[1%Z := 6; 2%Z := 7]} /\
  (forall a t, threads sys_two !! a = Some t ->
               registered_pc (t_pc t) = true ->
               active_ (qf sys_two) !! m_prio (t_act t) = Some a) /\
  (forall p a, active_ (qf sys_two) !! p = Some a ->
               (1 <= p <= @QF_MAX_ACTIVE win32_config)%Z /\
               exists t, threads sys_two !! a = Some t /\
                         m_prio (t_act t) = p /\
                         registered_pc (t_pc t) = true) /\
  (forall a b ta tb,
     threads sys_two !! a = Some ta -> threads sys_two !! b = Some tb ->
     registered_pc (t_pc ta) = true -> registered_pc (t_pc tb) = true ->
     m_prio (t_act ta) = m_prio (t_act tb) -> a = b).
Proof.
  assert (Hexec : @exec win32_config sch_two sys_boot = Some sys_two).
  { vm_compute. reflexivity. }
  split; [exact Hexec|]. split; [vm_compute; reflexivity|].
  exact (@registry_tracks_threads win32_config sch_two sys_two Hexec).
Defined.

Lemma no_exit_without_stop_witness :
  @exec win32_config sch_two_started sys_boot = Some sys_two_started /\
  main_pc sys_two_started <> InRun /\
  is_Some (threads sys_two_started !! 6) /\
  start_returned 6 sys_two_started /\
  @exec win32_config sch_two_rest sys_two_started = Some sys_two /\
  stop_free 6 (sch_two_started ++ sch_two_rest) = true /\
  threads sys_two !! 6 = Some thread_two /\
  m_thread (t_act thread_two) <> 0%Z /\
  in_loop (t_pc thread_two) = true /\
  active_ (qf sys_two) !! m_prio (t_act thread_two) = Some 6.
Proof.
  assert (Hexec1 : @exec win32_config sch_two_started sys_boot
                   = Some sys_two_started).
  { vm_compute. reflexivity. }
  assert (Hmain : main_pc sys_two_started <> InRun).
  { vm_compute. discriminate. }
  assert (Hsome : is_Some (threads sys_two_started !! 6)).
  { vm_compute. by eexists. }
  assert (Hret : start_returned 6 sys_two_started).
  { vm_compute. reflexivity. }
  assert (Hexec2 : @exec win32_config sch_two_rest sys_two_started
                   = Some sys_two).
  { vm_compute. reflexivity. }
  assert (Hta : threads sys_two !! 6 = Some thread_two).
  { vm_compute. reflexivity. }
  split; [exact Hexec1|]. split; [exact Hmain|]. split; [exact Hsome|].
  split; [exact Hret|]. split; [exact Hexec2|]. split; [reflexivity|].
  split; [exact Hta|].
  exact (@no_exit_without_stop win32_config sch_two_started sch_two_rest
           sys_two_started sys_two 6 thread_two
           Hexec1 Hmain Hsome Hret Hexec2 eq_refl Hta).
Defined.

(** The thread of an active object that is started while QF runs can reach
    the test of [m_thread] before QActive::start has stored the handle: it
    then leaves its loop although the object was never stopped. *)
Example exit_before_handle_is_stored :
  stop_free 6 (sch_late_start ++ [L_thread 6; L_thread 6; L_thread 6]) = true /\
  (s ← @exec win32_config
         (sch_late_start ++ [L_thread 6; L_thread 6; L_thread 6]) sys_boot;
   t ← threads s !! 6; Some (t_pc t, starting s !! 6))
  = Some (AtUnsubscribeAll, Some (os0, 0%Z)).
Proof. split; [reflexivity|]. vm_compute. reflexivity. Qed.

Section Reuse.
Context `{QFConfig}.

(** X15: the priority of an active object can be used again as soon as its
    thread has executed QF::remove_: in every state the system reaches, once
    a stopped thread has removed its object from the registry, a
    QActive::start of a fresh object with the same priority, no stack
    storage and a thread that Win32 creates goes through, and the new
    object holds the registry slot, its thread waiting at the startup
    gate; the rest of that start then stores the handle of the thread. *)
Theorem priority_reusable_after_remove (sch : list Label) (s s1 : Sys)
    (a b : AOPtr) (t : Thread) (os : Win32) (me : QActive)
    (args : StartArgs) :
  exec sch sys_boot = Some s ->
  threads s !! a = Some t -> t_pc t = AtRemove ->
  step (L_thread a) s = Some s1 ->
  threads s !! b = None ->
  a_prio args = m_prio (t_act t) -> a_stkSto args = 0%Z ->
  CreateThread_ os <> 0%Z ->
  exists s2 tb,
    step (L_start os b me args) s1 = Some s2 /\
    active_ (qf s2) !! a_prio args = Some b /\
    threads s2 !! b = Some tb /\
    t_pc tb = AtEnterStartup /\
    m_prio (t_act tb) = a_prio args /\
    exists s3,
      step (L_store b) s2 = Some s3 /\
      threads s3 !! b
      = Some (mkThread (set_thread (CreateThread_ os) (t_act tb))
                       AtEnterStartup) /\
      active_ (qf s3) !! a_prio args = Some b.
Proof.
  intros Hexec Hta Hpc Hstep Htb Hprio Hstk Hthr.
  destruct (exec_registry_inv sch sys_boot s registry_inv_boot Hexec)
    as (Hboot & Hin & Hout).
  assert (Hreg : active_ (qf s) !! m_prio (t_act t) = Some a).
  { apply Hin; [done|]. by rewrite Hpc. }
  destruct (Hout _ _ Hreg) as (Hrange & _).
  assert (Hmain : main_pc s <> BeforeInit).
  { intros Hm. specialize (Hboot Hm). by rewrite Hboot, lookup_empty in Hta. }
  assert (Hne : a <> b) by (intros ->; by rewrite Hta in Htb).
  simpl in Hstep. rewrite Hta in Hstep. simpl in Hstep.
  unfold QF_thread_ in Hstep. rewrite Hpc in Hstep. injection Hstep as <-.
  destruct (start_create_cases os b me args (QF_remove_ (t_act t) (qf s)))
    as [[Hbad _]|[(_ & _ & Hbad & _)|(_ & _ & _ & me1 & q1 & Hr & Hc)]].
  - exfalso. destruct Hbad as [Hbad|Hbad]; apply Hbad.
    + unfold prio_in_range. by rewrite Hprio.
    + done.
  - exfalso. apply Hbad. unfold slot_free, QF_remove_. simpl.
    rewrite Hprio. apply lookup_delete_eq.
  - cbv zeta in Hr.
    destruct Hc as (_ & Hp & _ & _ & Hact & _).
    apply Z.eqb_neq in Hthr.
    eexists _, (mkThread me1 AtEnterStartup).
    split.
    + simpl. rewrite lookup_insert_ne by done. rewrite Htb, Hr, Hthr.
      by destruct (main_pc s).
    + simpl. rewrite Hact, !lookup_insert_eq. split_and!; try done.
      eexists. split.
      * simpl. unfold QActive_start_store. cbn [set_thread m_thread].
        rewrite Hthr. simpl. reflexivity.
      * simpl. rewrite ?lookup_insert_eq. split; [done|].
        destruct (negb _); simpl; by rewrite Hact, lookup_insert_eq.
Qed.

End Reuse.

Lemma priority_reusable_after_remove_witness :
  exists s1 s2 tb,
    @exec win32_config sch_reuse sys_boot = Some sys_reuse /\
    threads sys_reuse !! 6 = Some thread_reuse /\
    t_pc thread_reuse = AtRemove /\
    @step win32_config (L_thread 6) sys_reuse = Some s1 /\
    @step win32_config (L_start os0 8 ao_fresh args0) s1 = Some s2 /\
    active_ (qf s2) !! a_prio args0 = Some 8 /\
    threads s2 !! 8 = Some tb /\
    t_pc tb = AtEnterStartup /\
    m_prio (t_act tb) = a_prio args0 /\
    exists s3,
      @step win32_config (L_store 8) s2 = Some s3 /\
      threads s3 !! 8
      = Some (mkThread (set_thread (CreateThread_ os0) (t_act tb))
                       AtEnterStartup) /\
      active_ (qf s3) !! a_prio args0 = Some 8.
Proof.
  assert (Hexec : @exec win32_config sch_reuse sys_boot = Some sys_reuse).
  { vm_compute. reflexivity. }
  assert (Hta : threads sys_reuse !! 6 = Some thread_reuse).
  { vm_compute. reflexivity. }
  assert (Hpc : t_pc thread_reuse = AtRemove).
  { vm_compute. reflexivity. }
  assert (Hstep : @step win32_config (L_thread 6) sys_reuse
                  = Some (default sys_boot
                            (@step win32_config (L_thread 6) sys_reuse))).
  { vm_compute. reflexivity. }
  assert (Htb : threads sys_reuse !! 8 = None).
  { vm_compute. reflexivity. }
  assert (Hthr : CreateThread_ os0 <> 0%Z) by discriminate.
  destruct (@priority_reusable_after_remove win32_config sch_reuse sys_reuse
              _ 6 8 thread_reuse os0 ao_fresh args0
              Hexec Hta Hpc Hstep Htb eq_refl eq_refl Hthr)
    as (s2 & tb & Hstart & Hslot & Hnew & Hgate & Hp & Hstore).
  exists (default sys_boot (@step win32_config (L_thread 6) sys_reuse)),
    s2, tb.
  split; [exact Hexec|]. split; [exact Hta|]. split; [exact Hpc|].
  split; [exact Hstep|]. split; [exact Hstart|]. split; [exact Hslot|].
  split; [exact Hnew|]. split; [exact Hgate|]. split; [exact Hp|].
  exact Hstore.
Defined.

(** ** The console *)

(** X14: QF_consoleGetKey never waits: it calls [_getch] only when a key
    is there.  Polled again and again it hands out the keys pressed in
    the order in which they were pressed, each one once, and from then on
    0; and whenever a key is waiting it gives what QF_consoleWaitForKey
    gives. *)
Theorem console_poll_in_order (c : Console) (m : nat) :
  poll (length c + m) c = Some (c ++ replicate m 0%Z, []) /\
  is_Some (QF_consoleGetKey c) /\
  (c <> [] -> QF_consoleGetKey c = QF_consoleWaitForKey c).
Proof.
  split; [|split].
  - induction c as [|k c IH]; simpl.
    + induction m as [|m IHm]; [done|]. simpl. simpl in IHm. by rewrite IHm.
    + by rewrite IH.
  - by destruct c.
  - by destruct c.
Qed.

Example console_three_polls :
  poll 3 [65%Z; 66%Z] = Some ([65%Z; 66%Z; 0%Z], []).
Proof. reflexivity. Qed.
